(** * Prime API client core: rate limiter, OAuth token cache, request executor

    A shallow embedding of [src/client/rate-limiter.ts], [src/client/oauth.ts]
    and [src/client/prime-client.ts], and of what stands around them:
    [src/client/json-api.ts], [src/utils/error-handler.ts] and
    [src/utils/filter-builder.ts].

    JavaScript numbers that the code only ever uses as integers (millisecond
    timestamps, counters, HTTP status codes) are modelled as [Z]: a double is
    exact on integers up to 2^53, far above any timestamp or counter here.
    The one place where a [NaN] can escape ([parseInt] on a header) is
    modelled by [JsNum].
    An [async] function is cut at its [await]s into synchronous segments; each
    segment is a pure function on the object's state, and the event loop is a
    step function that runs one segment at a time. *)

From Stdlib Require Import ZArith Lia Ascii String.
From stdpp Require Import base option list gmap strings pretty.

Local Open Scope Z_scope.

(* ===================================================================== *)
(** * Part I: definitions                                                 *)
(* ===================================================================== *)

(** ** JavaScript primitives used by the client *)

Module Js.

(** A JS number that is either an integer or [NaN]. *)
Inductive JsNum : Type :=
| Num (z : Z)
| NaN.

Definition isNaN (n : JsNum) : bool :=
  match n with NaN => true | Num _ => false end.

(** [Math.ceil (a / b)] for integers [a] and [b > 0]. *)
Definition ceil_div (a b : Z) : Z := - ((- a) / b).

(** White space skipped by [parseInt].  A header value is a byte string:
    each of its code units is below 256, and the white space among those is
    TAB, LF, VT, FF, CR, SP and the no-break space U+00A0. *)
Definition is_space (c : ascii) : bool :=
  match Ascii.nat_of_ascii c with
  | 9%nat | 10%nat | 11%nat | 12%nat | 13%nat | 32%nat | 160%nat => true
  | _ => false
  end.

Definition digit_of (c : ascii) : option Z :=
  let n := Z.of_nat (Ascii.nat_of_ascii c) in
  if (48 <=? n) && (n <=? 57) then Some (n - 48) else None.

Fixpoint skip_space (s : string) : string :=
  match s with
  | String c r => if is_space c then skip_space r else s
  | EmptyString => s
  end.

(** The longest prefix of decimal digits, as a number; [None] when the
    prefix is empty. *)
Fixpoint digits (acc : option Z) (s : string) : option Z :=
  match s with
  | String c r =>
      match digit_of c with
      | Some d => digits (Some (10 * default 0 acc + d)) r
      | None => acc
      end
  | EmptyString => acc
  end.

(** [parseInt(s, 10)]: trim leading white space, read an optional sign,
    read the longest run of decimal digits, ignore what follows; [NaN]
    when there is no digit. *)
Definition parseInt (s : string) : JsNum :=
  let s1 := skip_space s in
  let '(sign, s2) :=
    match s1 with
    | String "-"%char r => (-1, r)
    | String "+"%char r => (1, r)
    | _ => (1, s1)
    end in
  match digits None s2 with
  | Some n => Num (sign * n)
  | None => NaN
  end.

(** The decimal numeral of an integer, as a server writes it into a header:
    the digits of [n], least significant last, put in front of [tail]. *)
Definition digit_char (d : Z) : ascii := Ascii.ascii_of_nat (48 + Z.to_nat d).

Fixpoint render_digits (fuel : nat) (n : Z) (tail : string) : string :=
  match fuel with
  | O => tail
  | S fuel' =>
      let tail' := String (digit_char (n mod 10)) tail in
      if n <? 10 then tail' else render_digits fuel' (n / 10) tail'
  end.

Definition render (n : Z) : string :=
  if n <? 0
  then String "-"%char (render_digits (S (Z.to_nat (- n))) (- n) EmptyString)
  else render_digits (S (Z.to_nat n)) n EmptyString.

(** A string is falsy exactly when it is empty. *)
Definition truthy (s : string) : bool :=
  match s with EmptyString => false | _ => true end.

(** The [Headers] of a fetch response: a map from lower-case header names
    to values; [headers.get(name)] is the lookup, [null] is [None]. *)
Abbreviation Headers := (gmap string string).

End Js.

(** ** The rate limiter ([RateLimiter] in rate-limiter.ts) *)

(** [getNextMidnight] asks the JS runtime for the next local midnight; the
    local time zone is the host's, so the calendar is an interface. *)
Class Calendar := { getNextMidnight : Z -> Z }.

Module Limiter.
Import Js.

Record RateLimiter : Type := mkRateLimiter {
  tokens : Z;
  lastRefill : Z;
  dailyCount : Z;
  dailyReset : Z;
  concurrent : Z;
  (** the [resolve] callbacks of the suspended [waitForSlot] promises, each
      named by the number of the [acquire] call it belongs to *)
  waitingQueue : list nat
}.

Definition maxTokens : Z := 60.
Definition refillInterval : Z := 60000.
Definition dailyLimit : Z := 5000.
Definition maxConcurrent : Z := 5.

Definition set_tokens (v : Z) (s : RateLimiter) : RateLimiter :=
  mkRateLimiter v (lastRefill s) (dailyCount s) (dailyReset s) (concurrent s) (waitingQueue s).
Definition set_lastRefill (v : Z) (s : RateLimiter) : RateLimiter :=
  mkRateLimiter (tokens s) v (dailyCount s) (dailyReset s) (concurrent s) (waitingQueue s).
Definition set_dailyCount (v : Z) (s : RateLimiter) : RateLimiter :=
  mkRateLimiter (tokens s) (lastRefill s) v (dailyReset s) (concurrent s) (waitingQueue s).
Definition set_dailyReset (v : Z) (s : RateLimiter) : RateLimiter :=
  mkRateLimiter (tokens s) (lastRefill s) (dailyCount s) v (concurrent s) (waitingQueue s).
Definition set_concurrent (v : Z) (s : RateLimiter) : RateLimiter :=
  mkRateLimiter (tokens s) (lastRefill s) (dailyCount s) (dailyReset s) v (waitingQueue s).
Definition set_waitingQueue (v : list nat) (s : RateLimiter) : RateLimiter :=
  mkRateLimiter (tokens s) (lastRefill s) (dailyCount s) (dailyReset s) (concurrent s) v.

(** [RateLimitStatus]; the two [Date]s are kept as millisecond timestamps,
    and [dailyReset] is spelled [dailyResetDate] beside the limiter's field. *)
Record RateLimitStatus : Type := mkRateLimitStatus {
  tokensRemaining : Z;
  dailyRemaining : Z;
  concurrentActive : Z;
  nextRefill : Z;
  dailyResetDate : Z
}.

(** Where one [acquire()] call stands. *)
Inductive AcquireState : Type :=
| AwaitSlot                    (* inside [await this.waitForSlot()], callback queued *)
| SlotGranted                  (* callback was called; the loop test runs next *)
| Sleeping (wake : Z)          (* inside [await this.sleep(ms)], timer due at [wake] *)
| Acquired                     (* returned *)
| Rejected (retryAfter : Z).   (* threw [RateLimitError] *)

Section WithCalendar.
Context `{Calendar}.

(** [constructor()], run at time [now]. *)
Definition newRateLimiter (now : Z) : RateLimiter :=
  mkRateLimiter maxTokens now 0 (getNextMidnight now) 0 [].

(** [refillTokens()], with [Date.now()] returning [now]. *)
Definition refillTokens (now : Z) (s : RateLimiter) : RateLimiter :=
  let s1 :=
    if dailyReset s <=? now
    then set_dailyReset (getNextMidnight now) (set_dailyCount 0 s)
    else s in
  let elapsed := now - lastRefill s1 in
  if refillInterval <=? elapsed then
    let refills := elapsed / refillInterval in
    set_lastRefill (now - Z.rem elapsed refillInterval)
      (set_tokens (Z.min maxTokens (tokens s1 + refills * maxTokens)) s1)
  else s1.

(** The last three statements of [acquire()]. *)
Definition consume (s : RateLimiter) : RateLimiter :=
  set_concurrent (concurrent s + 1)
    (set_dailyCount (dailyCount s + 1)
       (set_tokens (tokens s - 1) s)).

(** [while (this.tokens <= 0) { ... await this.sleep(...) ... }] up to its
    first suspension, then the three final statements. *)
Definition token_gate (now : Z) (s : RateLimiter) : AcquireState * RateLimiter :=
  if tokens s <=? 0 then
    let waitTime := refillInterval - (now - lastRefill s) in
    (Sleeping (now + Z.max waitTime 100), s)
  else (Acquired, consume s).

(** [while (this.concurrent >= this.maxConcurrent) await this.waitForSlot()]
    up to its first suspension, then the rest of [acquire()]. *)
Definition slot_gate (self : nat) (now : Z) (s : RateLimiter)
  : AcquireState * RateLimiter :=
  if maxConcurrent <=? concurrent s
  then (AwaitSlot, set_waitingQueue (waitingQueue s ++ [self]) s)
  else token_gate now s.

(** [acquire()] from its first line up to its first suspension.  [now] is
    what [Date.now()] returns inside [refillTokens()], [now'] what it
    returns in the statements after it. *)
Definition acquire (self : nat) (now now' : Z) (s : RateLimiter)
  : AcquireState * RateLimiter :=
  let s1 := refillTokens now s in
  if dailyLimit <=? dailyCount s1 then
    let waitTime := ceil_div (dailyReset s1 - now') 1000 in
    (Rejected waitTime, s1)
  else slot_gate self now' s1.

(** [acquire()] resumed after [waitForSlot()] resolved. *)
Definition acquire_after_slot (self : nat) (now : Z) (s : RateLimiter)
  : AcquireState * RateLimiter :=
  slot_gate self now s.

(** [acquire()] resumed after [sleep()] resolved: [refillTokens()], then
    the loop test again. *)
Definition acquire_after_sleep (now now' : Z) (s : RateLimiter)
  : AcquireState * RateLimiter :=
  token_gate now' (refillTokens now s).

(** [getStatus()]: the snapshot and the limiter after [refillTokens()]. *)
Definition getStatus (now : Z) (s : RateLimiter) : RateLimitStatus * RateLimiter :=
  let s1 := refillTokens now s in
  (mkRateLimitStatus (tokens s1) (dailyLimit - dailyCount s1) (concurrent s1)
     (lastRefill s1 + refillInterval) (dailyReset s1), s1).

(** [isNearLimit()]: the answer and the limiter after [refillTokens()]. *)
Definition isNearLimit (now : Z) (s : RateLimiter) : bool * RateLimiter :=
  let s1 := refillTokens now s in
  ((tokens s1 <=? 5) || (dailyLimit - dailyCount s1 <=? 100), s1).

End WithCalendar.

(** [release()]: the new state and the callback taken from the queue. *)
Definition release (s : RateLimiter) : RateLimiter * option nat :=
  let s1 := set_concurrent (Z.max 0 (concurrent s - 1)) s in
  match waitingQueue s1 with
  | next :: rest => (set_waitingQueue rest s1, Some next)
  | [] => (s1, None)
  end.

(** [updateFromHeaders(headers)]. *)
Definition updateFromHeaders (headers : Headers) (s : RateLimiter) : RateLimiter :=
  let s1 :=
    match headers !! "x-ratelimit-minute-remaining"%string with
    | Some minuteRemaining =>
        match parseInt minuteRemaining with
        | Num remaining => set_tokens (Z.min remaining (tokens s)) s
        | NaN => s
        end
    | None => s
    end in
  match headers !! "x-ratelimit-day-remaining"%string with
  | Some dayRemaining =>
      match parseInt dayRemaining with
      | Num remaining => set_dailyCount (dailyLimit - remaining) s1
      | NaN => s1
      end
  | None => s1
  end.

End Limiter.

(** ** The event loop around one rate limiter

    JavaScript runs one synchronous segment at a time.  A [Pool] holds the
    limiter, the wall clock and the state of every [acquire()] call made so
    far; an [Event] is what the event loop does next. *)

Module Loop.
Import Js Limiter.

Record Pool : Type := mkPool {
  limiter : RateLimiter;
  clock : Z;
  calls : list AcquireState
}.

Inductive Event : Type :=
| CallAcquire                  (* somebody calls [acquire()] *)
| CallRelease                  (* somebody calls [release()] *)
| CallUpdate (h : Headers)     (* somebody calls [updateFromHeaders(h)] *)
| CallStatus                   (* somebody calls [getStatus()] or [isNearLimit()] *)
| Resume (i : nat)             (* the continuation of call [i] runs *)
| Tick (d : Z).                (* [d] milliseconds pass *)

Section WithCalendar.
Context `{Calendar}.

Definition start (now : Z) : Pool := mkPool (newRateLimiter now) now [].

(** One event; [None] when the event cannot happen in this pool (a
    continuation that is not scheduled, a timer that is not due, time
    running backwards). *)
Definition step (e : Event) (p : Pool) : option Pool :=
  match e with
  | CallAcquire =>
      let '(st, s) := acquire (length (calls p)) (clock p) (clock p) (limiter p) in
      Some (mkPool s (clock p) (calls p ++ [st]))
  | CallRelease =>
      let '(s, woken) := release (limiter p) in
      Some (mkPool s (clock p)
              match woken with
              | Some i => <[i := SlotGranted]> (calls p)
              | None => calls p
              end)
  | CallUpdate h => Some (mkPool (updateFromHeaders h (limiter p)) (clock p) (calls p))
  | CallStatus => Some (mkPool (refillTokens (clock p) (limiter p)) (clock p) (calls p))
  | Resume i =>
      match calls p !! i with
      | Some SlotGranted =>
          let '(st, s) := acquire_after_slot i (clock p) (limiter p) in
          Some (mkPool s (clock p) (<[i := st]> (calls p)))
      | Some (Sleeping wake) =>
          if wake <=? clock p then
            let '(st, s) := acquire_after_sleep (clock p) (clock p) (limiter p) in
            Some (mkPool s (clock p) (<[i := st]> (calls p)))
          else None
      | _ => None
      end
  | Tick d =>
      if 0 <=? d then Some (mkPool (limiter p) (clock p + d) (calls p)) else None
  end.

Fixpoint run (evs : list Event) (p : Pool) : option Pool :=
  match evs with
  | [] => Some p
  | e :: rest =>
      match step e p with
      | Some p' => run rest p'
      | None => None
      end
  end.

End WithCalendar.

(** Whether the event resumes a call that was sleeping for the per-minute
    refill. *)
Definition wakes_sleeper (e : Event) (p : Pool) : bool :=
  match e with
  | Resume i => match calls p !! i with Some (Sleeping _) => true | _ => false end
  | _ => false
  end.

(** Whether no event of the run resumes a sleeping call. *)
Fixpoint quiet `{Calendar} (evs : list Event) (p : Pool) : bool :=
  match evs with
  | [] => true
  | e :: rest =>
      negb (wakes_sleeper e p)
      && match step e p with
         | Some p' => quiet rest p'
         | None => true
         end
  end.

End Loop.

(** ** How callers use the limiter *)

Module Usage.
Import Js Limiter.

(** The slots a call in state [st] holds: one once [acquire()] has returned. *)
Definition held (st : AcquireState) : Z :=
  match st with Acquired => 1 | _ => 0 end.

(** [n] calls of [release()] one after the other: the callbacks they call,
    in order, and the limiter they leave. *)
Fixpoint releases (n : nat) (s : RateLimiter) : list nat * RateLimiter :=
  match n with
  | O => ([], s)
  | S n' =>
      let '(s1, woken) := release s in
      let '(ws, s2) := releases n' s1 in
      (match woken with Some i => i :: ws | None => ws end, s2)
  end.

Section WithCalendar.
Context `{Calendar}.

(** [acquire()] calls made one after the other at time [now], none of them
    resumed: the states they are left in and the limiter. *)
Fixpoint arrivals (now : Z) (ids : list nat) (s : RateLimiter)
  : list AcquireState * RateLimiter :=
  match ids with
  | [] => ([], s)
  | i :: rest =>
      let '(st, s1) := acquire i now now s in
      let '(sts, s2) := arrivals now rest s1 in
      (st :: sts, s2)
  end.

(** [await acquire(); release();] once at each of the times [nows], as long
    as [acquire()] returns without suspending; [None] when one of them
    suspends or throws. *)
Fixpoint serve (nows : list Z) (s : RateLimiter) : option RateLimiter :=
  match nows with
  | [] => Some s
  | now :: rest =>
      match acquire 0 now now s with
      | (Acquired, s1) => serve rest (release s1).1
      | _ => None
      end
  end.

End WithCalendar.

End Usage.

(** ** The OAuth client ([OAuthClient] in oauth.ts) *)

Module OAuth.
Import Js.

Record OAuthToken : Type := mkOAuthToken {
  access_token : string;
  token_type : string;
  expires_in : Z;
  refresh_token : option string
}.

Record OAuthError : Type := mkOAuthError {
  oe_message : string;
  oe_statusCode : option Z;
  oe_errorCode : option string
}.

Record OAuthClient : Type := mkOAuthClient {
  token : option OAuthToken;
  tokenExpiresAt : Z;
  (** the promise of the acquisition in progress, named by the number of
      the [acquireToken()] call that made it *)
  refreshPromise : option nat
}.

Definition REFRESH_BUFFER_MS : Z := 5 * 60 * 1000.

Definition newOAuthClient : OAuthClient := mkOAuthClient None 0 None.

Definition set_refreshPromise (v : option nat) (c : OAuthClient) : OAuthClient :=
  mkOAuthClient (token c) (tokenExpiresAt c) v.

(** [hasValidToken()]; the same test guards the cache in [getAccessToken()]. *)
Definition hasValidToken (now : Z) (c : OAuthClient) : bool :=
  match token c with
  | Some _ => now <? tokenExpiresAt c - REFRESH_BUFFER_MS
  | None => false
  end.

(** Which of its three ways [getAccessToken()] takes. *)
Inductive TokenPath : Type :=
| ShareInFlight (p : nat)      (* [return this.refreshPromise] *)
| UseCached (v : string)       (* [return this.token.access_token] *)
| StartAcquisition.            (* [this.refreshPromise = this.acquireToken()] *)

Definition getAccessToken_path (now : Z) (c : OAuthClient) : TokenPath :=
  match refreshPromise c with
  | Some p => ShareInFlight p
  | None =>
      match token c with
      | Some t =>
          if now <? tokenExpiresAt c - REFRESH_BUFFER_MS
          then UseCached (access_token t)
          else StartAcquisition
      | None => StartAcquisition
      end
  end.

(** [getTokenInfo()]: [hasToken] and [expiresIn], [null] being [None]. *)
Definition getTokenInfo (now : Z) (c : OAuthClient) : bool * option Z :=
  match token c with
  | None => (false, None)
  | Some _ => (true, Some (Z.max 0 ((tokenExpiresAt c - now) / 1000)))
  end.

(** The first two statements of [refreshToken()]; also [clearToken()]. *)
Definition clearToken (c : OAuthClient) : OAuthClient :=
  mkOAuthClient None 0 (refreshPromise c).

(** The error body of the token endpoint, after [JSON.parse]. *)
Record TokenErrorBody : Type := mkTokenErrorBody {
  error_description : option string;
  message : option string;
  error : option string
}.

(** What the token endpoint answers to one request. *)
Inductive TokenReply : Type :=
| TokenGranted (t : OAuthToken)                             (* 2xx, token in the body *)
| TokenRefused (status : Z) (body : option TokenErrorBody)  (* not 2xx; [None]: body is not JSON *)
| TokenGarbled (why : string)                               (* 2xx, [response.json()] threw *)
| TokenUnreachable.                                         (* [fetch] threw *)

(** [a || b] on strings that may be [undefined]. *)
Definition or_else (a : option string) (b : string) : string :=
  match a with
  | Some v => if truthy v then v else b
  | None => b
  end.

(** [acquireToken()] from the arrival of the reply to its end; [now] is what
    [Date.now()] returns then. *)
Definition acquireToken (now : Z) (r : TokenReply) (c : OAuthClient)
  : (OAuthError + string) * OAuthClient :=
  match r with
  | TokenGranted tokenData =>
      (inr (access_token tokenData),
       mkOAuthClient (Some tokenData) (now + expires_in tokenData * 1000) (refreshPromise c))
  | TokenRefused status body =>
      let errorMessage := ("OAuth authentication failed: " +:+ pretty status)%string in
      match body with
      | Some errorJson =>
          (inl (mkOAuthError
                  (or_else (error_description errorJson)
                     (or_else (message errorJson) errorMessage))
                  (Some status) (error errorJson)), c)
      | None => (inl (mkOAuthError errorMessage (Some status) None), c)
      end
  | TokenGarbled why =>
      (inl (mkOAuthError ("OAuth error: " +:+ why) None None), c)
  | TokenUnreachable =>
      (inl (mkOAuthError
              "Failed to connect to OAuth server. Check your network connection."
              None None), c)
  end.

(** *** The event loop around one OAuth client *)

(** One call of [acquireToken()]: one request sent to the token endpoint. *)
Inductive Acquisition : Type :=
| InFlight
| Got (v : string)
| Failed (e : OAuthError).

(** One call of [getAccessToken()]. *)
Inductive Caller : Type :=
| FromCache (v : string)     (* returned the cached credential *)
| Sharing (p : nat)          (* returned the promise of acquisition [p] *)
| Initiating (p : nat)       (* started acquisition [p], is awaiting it *)
| Initiated (p : nat).       (* started acquisition [p], has run its [finally] *)

Record TokenPool : Type := mkTokenPool {
  client : OAuthClient;
  tclock : Z;
  acquisitions : list Acquisition;
  callers : list Caller
}.

Inductive TokenEvent : Type :=
| CallGetAccessToken
| CallRefreshToken
| CallClearToken
| Settle (p : nat) (r : TokenReply)   (* the reply to acquisition [p] arrives *)
| Finish (c : nat)                    (* caller [c] resumes after its [await] *)
| Pass (d : Z).                       (* [d] milliseconds pass *)

Definition tstart (now : Z) : TokenPool := mkTokenPool newOAuthClient now [] [].

(** [getAccessToken()] up to its first suspension. *)
Definition enter (w : TokenPool) : TokenPool :=
  match getAccessToken_path (tclock w) (client w) with
  | ShareInFlight p =>
      mkTokenPool (client w) (tclock w) (acquisitions w) (callers w ++ [Sharing p])
  | UseCached v =>
      mkTokenPool (client w) (tclock w) (acquisitions w) (callers w ++ [FromCache v])
  | StartAcquisition =>
      let p := length (acquisitions w) in
      mkTokenPool (set_refreshPromise (Some p) (client w)) (tclock w)
        (acquisitions w ++ [InFlight]) (callers w ++ [Initiating p])
  end.

Definition tstep (e : TokenEvent) (w : TokenPool) : option TokenPool :=
  match e with
  | CallGetAccessToken => Some (enter w)
  | CallRefreshToken =>
      Some (enter (mkTokenPool (clearToken (client w)) (tclock w) (acquisitions w) (callers w)))
  | CallClearToken =>
      Some (mkTokenPool (clearToken (client w)) (tclock w) (acquisitions w) (callers w))
  | Settle p r =>
      match acquisitions w !! p with
      | Some InFlight =>
          let '(res, c) := acquireToken (tclock w) r (client w) in
          let a := match res with inl e => Failed e | inr v => Got v end in
          Some (mkTokenPool c (tclock w) (<[p := a]> (acquisitions w)) (callers w))
      | _ => None
      end
  | Finish c =>
      match callers w !! c with
      | Some (Initiating p) =>
          match acquisitions w !! p with
          | Some (Got _) | Some (Failed _) =>
              Some (mkTokenPool (set_refreshPromise None (client w)) (tclock w)
                      (acquisitions w) (<[c := Initiated p]> (callers w)))
          | _ => None
          end
      | _ => None
      end
  | Pass d =>
      if 0 <=? d
      then Some (mkTokenPool (client w) (tclock w + d) (acquisitions w) (callers w))
      else None
  end.

Fixpoint trun (evs : list TokenEvent) (w : TokenPool) : option TokenPool :=
  match evs with
  | [] => Some w
  | e :: rest =>
      match tstep e w with
      | Some w' => trun rest w'
      | None => None
      end
  end.

(** What caller [c] receives: the cached value, or whatever the acquisition
    it is attached to has produced so far. *)
Definition received (w : TokenPool) (c : nat) : option Acquisition :=
  match callers w !! c with
  | Some (FromCache v) => Some (Got v)
  | Some (Sharing p) | Some (Initiating p) | Some (Initiated p) => acquisitions w !! p
  | None => None
  end.

(** The acquisitions whose reply has not arrived. *)
Definition pending (a : Acquisition) : bool :=
  match a with InFlight => true | _ => false end.

Definition in_flight (w : TokenPool) : nat :=
  length (List.filter pending (acquisitions w)).

(** What ties the [refreshPromise] slot to the acquisitions and to the
    callers that started them. *)
Record token_inv (w : TokenPool) : Prop := mkTokenInv {
  inv_in_flight : forall p,
    acquisitions w !! p = Some InFlight -> refreshPromise (client w) = Some p;
  inv_initiating : forall c p,
    callers w !! c = Some (Initiating p) -> refreshPromise (client w) = Some p;
  inv_one_initiating : forall c c' p p',
    callers w !! c = Some (Initiating p) ->
    callers w !! c' = Some (Initiating p') -> c = c'
}.

End OAuth.

(** ** The HTTP client ([PrimeClient] in prime-client.ts, json-api.ts) *)

Module Client.
Import Js Limiter OAuth.

(** One member of the [errors] array of a JSON:API error document. *)
Record JsonApiError : Type := mkJsonApiError {
  detail : option string;
  title : option string
}.

(** What [response.json()] yields, as far as the client looks at it. *)
Inductive Body : Type :=
| NoJson                                   (* [response.json()] rejects *)
| ErrorDocument (errors : list JsonApiError)  (* an object whose [errors] is an array *)
| MessageObject (message : string)         (* another object with a [message] member *)
| Document (raw : string).                 (* any other JSON value *)

Record Response : Type := mkResponse {
  status : Z;
  statusText : string;
  headers : Headers;
  body : Body
}.

(** [response.ok] *)
Definition ok (r : Response) : bool := (200 <=? status r) && (status r <=? 299).

Definition isErrorResponse (b : Body) : bool :=
  match b with ErrorDocument _ => true | _ => false end.

Definition extractErrorMessages (errors : list JsonApiError) : list string :=
  map (fun e => or_else (detail e) (or_else (title e) "Unknown error")) errors.

Inductive ErrorCode : Type :=
| UNAUTHORIZED | FORBIDDEN | NOT_FOUND | VALIDATION_ERROR
| SERVER_ERROR | API_ERROR | AUTH_ERROR.

(** What [request()] can throw. *)
Inductive Thrown : Type :=
| PrimeApiError (message : string) (code : ErrorCode) (statusCode : Z)
                (details : option (list JsonApiError))
| RateLimitError (message : string) (retryAfter : JsNum)
| FetchTypeError       (* the [TypeError] of a failed [fetch] *)
| JsonSyntaxError.     (* [response.json()] rejected on a 2xx body *)

(** [handleErrorResponse(response)]: it always throws, the result is what. *)
Definition handleErrorResponse (response : Response) : Thrown :=
  let status := status response in
  let '(message, details) :=
    match body response with
    | ErrorDocument errors =>
        (String.concat "; " (extractErrorMessages errors), Some errors)
    | MessageObject m => (m, None)
    | _ => ("Prime API error: " +:+ pretty status +:+ " " +:+ statusText response, None)
    end in
  if status =? 401 then
    PrimeApiError "Authentication failed. Check your OAuth credentials."
      UNAUTHORIZED status None
  else if status =? 403 then
    PrimeApiError "Permission denied for this operation." FORBIDDEN status None
  else if status =? 404 then
    PrimeApiError "Resource not found." NOT_FOUND status None
  else if status =? 422 then
    PrimeApiError ("Validation failed: " +:+ message) VALIDATION_ERROR status details
  else if status =? 429 then
    let retrySeconds :=
      match headers response !! "retry-after"%string with
      | Some retryAfter => if truthy retryAfter then parseInt retryAfter else Num 60
      | None => Num 60
      end in
    RateLimitError "Prime API rate limit exceeded. Please wait before retrying."
      retrySeconds
  else if (status =? 500) || (status =? 502) || (status =? 503) || (status =? 504) then
    PrimeApiError ("Server error: " +:+ message) SERVER_ERROR status None
  else
    PrimeApiError message API_ERROR status details.

(** The four statuses of the [SERVER_ERROR] case labels. *)
Definition is_gateway_status (c : Z) : bool :=
  (c =? 500) || (c =? 502) || (c =? 503) || (c =? 504).

Record PrimeRequestOptions : Type := mkOptions {
  method : string;
  endpoint : string;
  retryOnAuthError : option bool
}.

(** [options.retryOnAuthError !== false] *)
Definition retry_enabled (o : PrimeRequestOptions) : bool :=
  match retryOnAuthError o with Some false => false | _ => true end.

(** [{ ...options, retryOnAuthError: false }] *)
Definition without_retry (o : PrimeRequestOptions) : PrimeRequestOptions :=
  mkOptions (method o) (endpoint o) (Some false).

(** What [fetch] does with one API request. *)
Inductive FetchReply : Type :=
| Answered (r : Response)
| Unreachable.

(** The network: the replies the API and the token endpoint will give to
    the requests still to come, each with the time it takes. *)
Record Network : Type := mkNetwork {
  api : list (Z * FetchReply);
  tokenEndpoint : list (Z * TokenReply)
}.

Record World : Type := mkWorld {
  rateLimiter : RateLimiter;
  oauthClient : OAuthClient;
  time : Z;
  network : Network
}.

Definition next_api (w : World) : FetchReply * World :=
  match api (network w) with
  | (d, r) :: rest =>
      (r, mkWorld (rateLimiter w) (oauthClient w) (time w + Z.max 0 d)
            (mkNetwork rest (tokenEndpoint (network w))))
  | [] => (Unreachable, w)
  end.

Definition next_token (w : World) : TokenReply * World :=
  match tokenEndpoint (network w) with
  | (d, r) :: rest =>
      (r, mkWorld (rateLimiter w) (oauthClient w) (time w + Z.max 0 d)
            (mkNetwork (api (network w)) rest))
  | [] => (TokenUnreachable, w)
  end.

Definition set_rateLimiter (s : RateLimiter) (w : World) : World :=
  mkWorld s (oauthClient w) (time w) (network w).
Definition set_oauthClient (c : OAuthClient) (w : World) : World :=
  mkWorld (rateLimiter w) c (time w) (network w).
Definition set_time (t : Z) (w : World) : World :=
  mkWorld (rateLimiter w) (oauthClient w) t (network w).

(** The calls [request()] makes on its collaborators, in order. *)
Inductive Call : Type :=
| DidAcquire                                  (* [rateLimiter.acquire()] *)
| DidRelease                                  (* [rateLimiter.release()] *)
| DidGetAccessToken                           (* [oauthClient.getAccessToken()] *)
| DidRefreshToken                             (* [oauthClient.refreshToken()] *)
| DidTokenFetch (r : TokenReply)              (* [fetch(config.primeOAuthUrl)] *)
| DidFetch (bearer : string) (r : FetchReply) (* [fetch(url)] with that credential *)
| DidUpdateFromHeaders.                       (* [rateLimiter.updateFromHeaders()] *)

Inductive Payload : Type :=
| EmptyData                 (* [{ data: [] }] *)
| Parsed (b : Body).        (* [parseJsonApiResponse(data)] *)

(** How one [request()] ends when no other task runs meanwhile. *)
Inductive Outcome : Type :=
| Returned (data : Payload)
| Threw (e : Thrown)
| Suspended      (* waits for something only another task can do *)
| OutOfFuel.     (* still sleeping when the fuel of the model ran out *)

Inductive TokenOutcome : Type :=
| TokenOk (accessToken : string)
| TokenErr (e : OAuthError)
| TokenSuspended.   (* awaits an acquisition that another task started *)

(** What the [try] block decides. *)
Inductive Attempt : Type :=
| Done (o : Outcome)
| Retry.            (* [return this.request({ ...options, retryOnAuthError: false })] *)

(** The [catch] clause applied to an [OAuthError]. *)
Definition auth_error (e : OAuthError) : Thrown :=
  PrimeApiError (oe_message e) AUTH_ERROR
    (match oe_statusCode e with
     | Some c => if c =? 0 then 401 else c
     | None => 401
     end)
    None.

(** What [handleErrorResponse] throws for a 401. *)
Definition unauthorized_error : Thrown :=
  PrimeApiError "Authentication failed. Check your OAuth credentials."
    UNAUTHORIZED 401 None.

(** The [RateLimitError] thrown by [acquire()]. *)
Definition daily_limit_error (waitTime : Z) : Thrown :=
  RateLimitError
    ("Daily limit of " +:+ pretty dailyLimit +:+ " requests exceeded. Resets in "
       +:+ pretty (ceil_div waitTime 3600) +:+ " hours.")
    (Num waitTime).

(** [oauthClient.getAccessToken()], run to its end. *)
Definition getAccessToken (w : World) : TokenOutcome * World * list Call :=
  match getAccessToken_path (time w) (oauthClient w) with
  | ShareInFlight _ => (TokenSuspended, w, [])
  | UseCached v => (TokenOk v, w, [])
  | StartAcquisition =>
      let '(r, w1) := next_token w in
      let '(res, c) := acquireToken (time w1) r (oauthClient w1) in
      (* [finally { this.refreshPromise = null }] *)
      let w2 := set_oauthClient (set_refreshPromise None c) w1 in
      (match res with inl e => TokenErr e | inr v => TokenOk v end, w2, [DidTokenFetch r])
  end.

(** [oauthClient.refreshToken()], run to its end. *)
Definition refreshToken (w : World) : TokenOutcome * World * list Call :=
  getAccessToken (set_oauthClient (clearToken (oauthClient w)) w).

(** [rateLimiter.release()]; the callback it calls belongs to another task. *)
Definition release_slot (w : World) : World :=
  set_rateLimiter (fst (release (rateLimiter w))) w.

Section WithCalendar.
Context `{Calendar}.

(** [acquire()] continued from state [st] until it returns, throws, or waits
    for a slot; a timer fires when it is due. *)
Fixpoint acquire_resume (fuel : nat) (self : nat) (st : AcquireState) (w : World)
  : AcquireState * World :=
  match fuel with
  | O => (st, w)
  | S fuel' =>
      match st with
      | SlotGranted =>
          let '(st', s) := acquire_after_slot self (time w) (rateLimiter w) in
          acquire_resume fuel' self st' (set_rateLimiter s w)
      | Sleeping wake =>
          let now := Z.max (time w) wake in
          let '(st', s) := acquire_after_sleep now now (rateLimiter w) in
          acquire_resume fuel' self st' (set_time now (set_rateLimiter s w))
      | _ => (st, w)
      end
  end.

(** The [try] block of [request()] with its [catch] clause. *)
Definition attempt (options : PrimeRequestOptions) (w : World)
  : Attempt * World * list Call :=
  let '(tk, w1, tr1) := getAccessToken w in
  let tr1 := DidGetAccessToken :: tr1 in
  match tk with
  | TokenSuspended => (Done Suspended, w1, tr1)
  | TokenErr e => (Done (Threw (auth_error e)), w1, tr1)
  | TokenOk accessToken =>
      let '(reply, w2) := next_api w1 in
      let tr2 := tr1 ++ [DidFetch accessToken reply] in
      match reply with
      | Unreachable => (Done (Threw FetchTypeError), w2, tr2)
      | Answered response =>
          let w3 := set_rateLimiter
                      (updateFromHeaders (headers response) (rateLimiter w2)) w2 in
          let tr3 := tr2 ++ [DidUpdateFromHeaders] in
          if (status response =? 401) && retry_enabled options then
            let '(tk', w4, tr4) := refreshToken w3 in
            let tr4 := tr3 ++ DidRefreshToken :: tr4 in
            match tk' with
            | TokenOk _ => (Retry, w4, tr4)
            | TokenErr e => (Done (Threw (auth_error e)), w4, tr4)
            | TokenSuspended => (Done Suspended, w4, tr4)
            end
          else if negb (ok response) then
            (Done (Threw (handleErrorResponse response)), w3, tr3)
          else if status response =? 204 then
            (Done (Returned EmptyData), w3, tr3)
          else
            match body response with
            | NoJson => (Done (Threw JsonSyntaxError), w3, tr3)
            | ErrorDocument errors =>
                (Done (Threw (PrimeApiError
                                (String.concat "; " (extractErrorMessages errors))
                                VALIDATION_ERROR (status response) (Some errors))),
                 w3, tr3)
            | data => (Done (Returned (Parsed data)), w3, tr3)
            end
      end
  end.

(** [request()] after [this.rateLimiter.acquire()] was called and left the
    call in state [st]: the rest of [acquire()], then the [try] block, then
    the [finally].  [again] is the recursive call of the 401 branch together
    with the [finally] of this call. *)
Definition conclude (fuel self : nat) (options : PrimeRequestOptions)
    (st : AcquireState) (w : World)
    (again : World -> Outcome * World * list Call)
  : Outcome * World * list Call :=
  let '(st', w1) := acquire_resume fuel self st w in
  match st' with
  | Acquired =>
      let '(r, w2, tr) := attempt options w1 in
      match r with
      | Done o => (o, release_slot w2, tr ++ [DidRelease])
      | Retry => let '(o, w3, tr') := again w2 in (o, w3, tr ++ tr')
      end
  | Rejected waitTime => (Threw (daily_limit_error waitTime), w1, [])
  | Sleeping _ => (OutOfFuel, w1, [])
  | AwaitSlot | SlotGranted => (Suspended, w1, [])
  end.

(** [return this.request({ ...options, retryOnAuthError: false })] inside the
    [try] of the first call.  The inner call runs up to its first suspension
    (it calls [acquire()]), then the [finally] of the first call releases its
    slot, which resolves the inner call's [waitForSlot()] when that is the
    head of the queue, then the inner call goes on. *)
Definition request_again (fuel self : nat) (options : PrimeRequestOptions) (w : World)
  : Outcome * World * list Call :=
  let '(st, s) := acquire self (time w) (time w) (rateLimiter w) in
  let '(s', woken) := release s in
  let st' :=
    match st, waitingQueue (rateLimiter w) with
    | AwaitSlot, [] => SlotGranted
    | _, _ => st
    end in
  let '(o, w', tr) :=
    conclude fuel self (without_retry options) st' (set_rateLimiter s' w)
      (fun w => (Suspended, w, [])) in
  (o, w', [DidAcquire; DidRelease] ++ tr).

(** [request(options)]: [self] names its [acquire()] call. *)
Definition request (fuel self : nat) (options : PrimeRequestOptions) (w : World)
  : Outcome * World * list Call :=
  let '(st, s) := acquire self (time w) (time w) (rateLimiter w) in
  let '(o, w', tr) :=
    conclude fuel self options st (set_rateLimiter s w)
      (request_again fuel (S self) options) in
  (o, w', DidAcquire :: tr).

End WithCalendar.

(** How often a call occurs in a trace. *)
Definition is_acquire (c : Call) : bool := match c with DidAcquire => true | _ => false end.
Definition is_release (c : Call) : bool := match c with DidRelease => true | _ => false end.
Definition is_refresh (c : Call) : bool := match c with DidRefreshToken => true | _ => false end.
Definition is_fetch (c : Call) : bool := match c with DidFetch _ _ => true | _ => false end.
Definition is_token_fetch (c : Call) : bool :=
  match c with DidTokenFetch _ => true | _ => false end.

Definition count (f : Call -> bool) (tr : list Call) : nat := length (List.filter f tr).

(** The API fetches of a trace, in order. *)
Definition fetches (tr : list Call) : list (string * FetchReply) :=
  omap (fun c => match c with DidFetch b r => Some (b, r) | _ => None end) tr.

Definition is_401 (r : FetchReply) : bool :=
  match r with Answered resp => status resp =? 401 | Unreachable => false end.

(** The credentials the token endpoint granted in a trace, in order. *)
Definition granted (tr : list Call) : list string :=
  omap (fun c => match c with
                 | DidTokenFetch (TokenGranted t) => Some (access_token t)
                 | _ => None
                 end) tr.

(** What follows the first API fetch of a trace. *)
Fixpoint after_first_fetch (tr : list Call) : list Call :=
  match tr with
  | [] => []
  | DidFetch _ _ :: rest => rest
  | _ :: rest => after_first_fetch rest
  end.



End Client.

(** ** JSON:API documents (json-api.ts) *)

Module JsonApi.
Import Js OAuth.

Record JsonApiPagination : Type := mkPagination {
  pg_total : Z;
  pg_count : Z;
  pg_per_page : Z;
  pg_current_page : Z;
  pg_total_pages : Z
}.

Section WithValues.
(** [V] is the type of attribute values ([unknown] in the source); [str]
    makes the JSON string that [id] and [type] are. *)
Context {V : Type} (str : string -> V).

Record JsonApiResource : Type := mkResource {
  res_type : string;
  res_id : string;
  res_attributes : gmap string V
}.

(** A document that has its [data] member, as the interface declares it;
    [parseJsonApiResponse] is a cast and does not look. *)
Record JsonApiResponse : Type := mkJsonApiResponse {
  (** [data]: one resource or an array of them *)
  res_data : JsonApiResource + list JsonApiResource;
  (** [meta?: { pagination?: ... }] *)
  res_meta : option (option JsonApiPagination);
  res_included : option (list JsonApiResource)
}.

(** [{ id: r.id, type: r.type, ...r.attributes }]: a later member of an
    object literal replaces an earlier one of the same name. *)
Definition flatten (r : JsonApiResource) : gmap string V :=
  res_attributes r ∪ {[ "id"%string := str (res_id r); "type"%string := str (res_type r) ]}.

(** [extractSingleResource]: the error message on the left when it throws. *)
Definition extractSingleResource (response : JsonApiResponse) : string + gmap string V :=
  match res_data response with
  | inr _ => inl "Expected single resource but got array"%string
  | inl r => inr (flatten r)
  end.

Definition extractResourceList (response : JsonApiResponse)
  : string + list (gmap string V) :=
  match res_data response with
  | inl _ => inl "Expected array but got single resource"%string
  | inr items => inr (map flatten items)
  end.

(** [response.meta?.pagination ?? null] *)
Definition extractPagination (response : JsonApiResponse) : option JsonApiPagination :=
  match res_meta response with
  | Some (Some p) => Some p
  | _ => None
  end.

Definition extractIncluded (response : JsonApiResponse) (type : string)
  : list (gmap string V) :=
  match res_included response with
  | None => []
  | Some items =>
      map flatten (List.filter (fun item => String.eqb (res_type item) type) items)
  end.

Definition findIncludedById (response : JsonApiResponse) (type id : string)
  : option (gmap string V) :=
  match res_included response with
  | None => None
  | Some items =>
      match List.find (fun item => String.eqb (res_type item) type
                                   && String.eqb (res_id item) id) items with
      | Some found => Some (flatten found)
      | None => None
      end
  end.

(** The [data] member of what [buildJsonApiBody] returns. *)
Record RequestData : Type := mkRequestData {
  req_type : string;
  req_id : option string;
  req_attributes : gmap string V
}.

(** [buildJsonApiBody(type, attributes, id?)]: [if (id)] drops an absent and an
    empty [id] alike. *)
Definition buildJsonApiBody (type : string) (attributes : gmap string V)
    (id : option string) : RequestData :=
  mkRequestData type
    (match id with
     | Some v => if truthy v then Some v else None
     | None => None
     end)
    attributes.

End WithValues.

End JsonApi.

(** ** What a tool reports for an error (utils/error-handler.ts) *)

Module ErrorHandler.
Import Js OAuth Client.

(** One element of a [ZodError]'s [errors]: the [path], whose members are
    strings or numbers, and the [message]. *)
Record ZodIssue : Type := mkZodIssue {
  zi_path : list (string + Z);
  zi_message : string
}.

(** What a tool's [catch] clause can be handed, by class. *)
Inductive Caught : Type :=
| CaughtRateLimit (message : string) (retryAfter : JsNum)
| CaughtPrimeApi (message : string) (code : ErrorCode) (statusCode : Z)
                 (details : option (list JsonApiError))
| CaughtZod (errors : list ZodIssue)
| CaughtTypeError (message : string)
| CaughtError (message : string)       (* an [Error] of any other class *)
| CaughtOther.                         (* a thrown value that is no [Error] *)

Inductive Details : Type :=
| ApiDetails (errors : list JsonApiError)       (* [{ errors: [...] }] *)
| FieldDetails (fields : gmap string string).   (* [{ fields: {...} }] *)

Record ErrorResponse : Type := mkErrorResponse {
  er_code : string;
  er_message : string;
  er_details : option Details;
  er_retryAfter : option JsNum
}.

(** The string a [PrimeApiError] carries as its [code]. *)
Definition code_name (c : ErrorCode) : string :=
  match c with
  | UNAUTHORIZED => "UNAUTHORIZED"
  | FORBIDDEN => "FORBIDDEN"
  | NOT_FOUND => "NOT_FOUND"
  | VALIDATION_ERROR => "VALIDATION_ERROR"
  | SERVER_ERROR => "SERVER_ERROR"
  | API_ERROR => "API_ERROR"
  | AUTH_ERROR => "AUTH_ERROR"
  end.

(** [hay.includes(needle)] *)
Definition includes (needle hay : string) : bool :=
  match String.index 0 needle hay with Some _ => true | None => false end.

(** [err.path.join('.')] *)
Definition path_key (path : list (string + Z)) : string :=
  String.concat "." (map (fun m => match m with inl s => s | inr n => render n end) path).

(** [acc[path] = message] on an object made by [{}]; the map holds the
    object's own members.  The name [__proto__] is an accessor inherited from
    [Object.prototype], whose setter ignores a string: that assignment adds
    no member.  Every other name becomes, or stays, a member of its own. *)
Definition assign (path message : string) (acc : gmap string string) : gmap string string :=
  if String.eqb path "__proto__" then acc else <[path := message]> acc.

(** [error.errors.reduce((acc, err) => { acc[path] = err.message; ... }, {})] *)
Definition fieldErrors (errors : list ZodIssue) : gmap string string :=
  foldl (fun acc err => assign (path_key (zi_path err)) (zi_message err) acc) ∅ errors.

Definition classifyError (error : Caught) : ErrorResponse :=
  match error with
  | CaughtRateLimit message retryAfter =>
      mkErrorResponse "RATE_LIMITED" message None (Some retryAfter)
  | CaughtPrimeApi message code _ details =>
      mkErrorResponse (code_name code) message (ApiDetails <$> details) None
  | CaughtZod errors =>
      mkErrorResponse "VALIDATION_ERROR" "Invalid input parameters"
        (Some (FieldDetails (fieldErrors errors))) None
  | CaughtTypeError message =>
      if includes "fetch" message
      then mkErrorResponse "NETWORK_ERROR"
             "Failed to connect to Prime API. Check your network connection." None None
      else mkErrorResponse "INTERNAL_ERROR" message None None
  | CaughtError message => mkErrorResponse "INTERNAL_ERROR" message None None
  | CaughtOther => mkErrorResponse "UNKNOWN_ERROR" "An unexpected error occurred" None None
  end.

(** What [request()] throws, as the [catch] clause of a tool sees it;
    [text] is the message the runtime gave to its own error. *)
Definition caught (e : Thrown) (text : string) : Caught :=
  match e with
  | PrimeApiError message code statusCode details =>
      CaughtPrimeApi message code statusCode details
  | RateLimitError message retryAfter => CaughtRateLimit message retryAfter
  | FetchTypeError => CaughtTypeError text
  | JsonSyntaxError => CaughtError text
  end.

End ErrorHandler.

(** ** The filter query builder (utils/filter-builder.ts) *)

Module Filter.
Import Js OAuth.

(** A filter value: [string | number | boolean], the numbers being
    integers. *)
Inductive FilterValue : Type :=
| FStr (s : string)
| FNum (n : Z)
| FBool (b : bool).

(** [`${value}`] *)
Definition show (v : FilterValue) : string :=
  match v with
  | FStr s => s
  | FNum n => render n
  | FBool true => "true"
  | FBool false => "false"
  end.

Record FilterBuilder : Type := mkFilterBuilder { filters : list string }.

Definition newFilterBuilder : FilterBuilder := mkFilterBuilder [].

(** [this.filters.push(expression); return this] *)
Definition raw (expression : string) (b : FilterBuilder) : FilterBuilder :=
  mkFilterBuilder (filters b ++ [expression]).

(** [`'${field}'.op('${value}')`] *)
Definition unary (op field : string) (value : FilterValue) : string :=
  ("'" +:+ field +:+ "'." +:+ op +:+ "('" +:+ show value +:+ "')")%string.

Definition f_eq (field : string) (value : FilterValue) := raw (unary "eq" field value).
Definition f_neq (field : string) (value : FilterValue) := raw (unary "neq" field value).
Definition f_gt (field : string) (value : FilterValue) := raw (unary "gt" field value).
Definition f_gte (field : string) (value : FilterValue) := raw (unary "gte" field value).
Definition f_lt (field : string) (value : FilterValue) := raw (unary "lt" field value).
Definition f_lte (field : string) (value : FilterValue) := raw (unary "lte" field value).
Definition f_like (field pattern : string) := raw (unary "like" field (FStr pattern)).

(** [`'${field}'.op(${values.join(',')})`] *)
Definition listed (op field : string) (values : list FilterValue) : string :=
  ("'" +:+ field +:+ "'." +:+ op +:+ "(" +:+ String.concat "," (map show values) +:+ ")")%string.

Definition f_in (field : string) (values : list FilterValue) := raw (listed "in" field values).
Definition f_nin (field : string) (values : list FilterValue) := raw (listed "nin" field values).

Definition f_between (field : string) (min max : FilterValue) :=
  raw ("'" +:+ field +:+ "'.between('" +:+ show min +:+ "','" +:+ show max +:+ "')")%string.

Definition build (b : FilterBuilder) : string := String.concat "," (filters b).
Definition buildOr (b : FilterBuilder) : string := String.concat "|" (filters b).
Definition hasFilters (b : FilterBuilder) : bool := (0 <? length (filters b))%nat.
Definition clear (b : FilterBuilder) : FilterBuilder := mkFilterBuilder [].
Definition f_length (b : FilterBuilder) : nat := length (filters b).

Inductive OrderDir : Type := ASC | DESC.

Record ListOptions : Type := mkListOptions {
  page : option Z;
  perPage : option Z;
  orderBy : option string;
  orderDir : option OrderDir;
  includes : option (list string);
  lo_filters : option FilterBuilder
}.

(** [buildListQuery(options)]: the members of the object it returns. *)
Definition buildListQuery (options : ListOptions) : gmap string FilterValue :=
  let query : gmap string FilterValue := ∅ in
  let query :=
    match page options with
    | Some n => <["page"%string := FNum n]> query
    | None => query
    end in
  let query :=
    match perPage options with
    | Some n => <["per_page"%string := FNum n]> query
    | None => query
    end in
  let query :=
    match orderBy options with
    | Some by_ =>
        if truthy by_ then
          <["order"%string :=
              FStr (match orderDir options with
                    | Some DESC => by_ +:+ "|DESC"
                    | _ => by_
                    end)]> query
        else query
    | None => query
    end in
  let query :=
    match includes options with
    | Some (i :: rest) => <["includes"%string := FStr (String.concat "," (i :: rest))]> query
    | _ => query
    end in
  match lo_filters options with
  | Some b => if hasFilters b then <["q"%string := FStr (build b)]> query else query
  | None => query
  end.

(** [if (param) builder.method(..., param)] for an optional string. *)
Definition when_given (param : option string)
    (add : string -> FilterBuilder -> FilterBuilder) (b : FilterBuilder) : FilterBuilder :=
  match param with
  | Some v => if truthy v then add v b else b
  | None => b
  end.

Definition contains (v : string) : string := ("%" +:+ v +:+ "%")%string.

Record JobParams : Type := mkJobParams {
  jp_statusId : option string;
  jp_divisionId : option string;
  jp_assignedId : option string;
  jp_clientId : option string;
  jp_customerId : option string;
  jp_perilId : option string;
  jp_createdAfter : option string;
  jp_createdBefore : option string;
  jp_updatedAfter : option string;
  jp_jobNumber : option string;
  jp_clientReference : option string
}.

(** [CommonFilters.jobs(params)] *)
Definition jobs (params : JobParams) : FilterBuilder :=
  let builder := newFilterBuilder in
  let builder := when_given (jp_statusId params) (fun v => f_eq "statusId" (FStr v)) builder in
  let builder := when_given (jp_divisionId params) (fun v => f_eq "divisionId" (FStr v)) builder in
  let builder := when_given (jp_assignedId params) (fun v => f_eq "assignedId" (FStr v)) builder in
  let builder := when_given (jp_clientId params) (fun v => f_eq "clientId" (FStr v)) builder in
  let builder := when_given (jp_customerId params) (fun v => f_eq "customerId" (FStr v)) builder in
  let builder := when_given (jp_perilId params) (fun v => f_eq "perilId" (FStr v)) builder in
  let builder := when_given (jp_createdAfter params) (fun v => f_gte "createdAt" (FStr v)) builder in
  let builder := when_given (jp_createdBefore params) (fun v => f_lte "createdAt" (FStr v)) builder in
  let builder := when_given (jp_updatedAfter params) (fun v => f_gte "updatedAt" (FStr v)) builder in
  let builder := when_given (jp_jobNumber params)
                   (fun v => f_like "jobNumber" (contains v)) builder in
  when_given (jp_clientReference params)
    (fun v => f_like "clientReference" (contains v)) builder.

Record ContactParams : Type := mkContactParams {
  cp_name : option string;
  cp_email : option string;
  cp_phone : option string;
  cp_isActive : option bool;
  cp_contactTypeId : option string
}.

(** [CommonFilters.contacts(params)]: [isActive] is tested against
    [undefined], so [false] is a filter too. *)
Definition contacts (params : ContactParams) : FilterBuilder :=
  let builder := newFilterBuilder in
  let builder := when_given (cp_name params) (fun v => f_like "name" (contains v)) builder in
  let builder := when_given (cp_email params) (fun v => f_like "email" (contains v)) builder in
  let builder := when_given (cp_phone params) (fun v => f_like "phone" (contains v)) builder in
  let builder :=
    match cp_isActive params with
    | Some a => f_eq "isActive" (FBool a) builder
    | None => builder
    end in
  when_given (cp_contactTypeId params) (fun v => f_eq "contactTypeId" (FStr v)) builder.

Record AllocationParams : Type := mkAllocationParams {
  ap_jobId : option string;
  ap_assignedContactId : option string;
  ap_allocationStatusId : option string;
  ap_allocationType : option string
}.

(** [CommonFilters.allocations(params)] *)
Definition allocations (params : AllocationParams) : FilterBuilder :=
  let builder := newFilterBuilder in
  let builder := when_given (ap_jobId params) (fun v => f_eq "jobId" (FStr v)) builder in
  let builder := when_given (ap_assignedContactId params)
                   (fun v => f_eq "assignedContactId" (FStr v)) builder in
  let builder := when_given (ap_allocationStatusId params)
                   (fun v => f_eq "allocationStatusId" (FStr v)) builder in
  when_given (ap_allocationType params) (fun v => f_eq "allocationType" (FStr v)) builder.

Record EstimateParams : Type := mkEstimateParams {
  ep_jobId : option string;
  ep_createdAfter : option string;
  ep_createdBefore : option string
}.

(** [CommonFilters.estimates(params)] *)
Definition estimates (params : EstimateParams) : FilterBuilder :=
  let builder := newFilterBuilder in
  let builder := when_given (ep_jobId params) (fun v => f_eq "jobId" (FStr v)) builder in
  let builder := when_given (ep_createdAfter params)
                   (fun v => f_gte "createdAt" (FStr v)) builder in
  when_given (ep_createdBefore params) (fun v => f_lte "createdAt" (FStr v)) builder.

(** How many of the optional strings are given and not empty. *)
Definition given (params : list (option string)) : nat :=
  length (List.filter (fun p => match p with Some v => truthy v | None => false end) params).

End Filter.

(** ** Concrete inputs used by the examples below *)

Module Sample.
Import Js Limiter Loop OAuth Client.

(** A host whose local time is UTC, without daylight saving. *)
Definition utc : Calendar :=
  {| getNextMidnight := fun now => (now / 86400000 + 1) * 86400000 |}.

(** Sixty requests of 400 ms each, one every half second, made and finished
    within the first half minute; then six [acquire()] calls in a row; the
    rest of the minute passes, and the six timers fire. *)
Definition six_sleepers : list Event :=
  List.concat (replicate 60 [CallAcquire; Tick 400; CallRelease; Tick 100])
  ++ replicate 6 CallAcquire
  ++ [Tick 30000]
  ++ map Resume (seq 60 6).

(** Seven [acquire()] calls in a row, of which two must wait for a slot;
    then one request finishes and the first waiter goes on. *)
Definition seven_callers : list Event :=
  replicate 7 CallAcquire ++ [Tick 250; CallRelease; Resume 5].


(** Two requests whose responses report the server's counters, a minute of
    silence, and a look at the status. *)
Definition synced_calls : list Event :=
  [CallAcquire; Tick 300;
   CallUpdate {[ "x-ratelimit-minute-remaining"%string := "10"%string;
                 "x-ratelimit-day-remaining"%string := "4000"%string ]};
   CallRelease; CallAcquire; Tick 300;
   CallUpdate {[ "x-ratelimit-minute-remaining"%string := "9"%string ]};
   CallRelease; CallRelease; Tick 60000; CallStatus].

(** Three error responses without a JSON body. *)
Definition not_implemented : Response :=
  mkResponse 501 "Not Implemented" ∅ NoJson.

Definition unavailable : Response :=
  mkResponse 503 "Service Unavailable" ∅ NoJson.

(** A 429 whose [Retry-After] is an HTTP date, the other form the header
    may take. *)
Definition throttled_until : Response :=
  mkResponse 429 "Too Many Requests"
    {[ "retry-after"%string := "Wed, 21 Oct 2015 07:28:00 GMT"%string ]} NoJson.

Definition unauthorized : Response :=
  mkResponse 401 "Unauthorized" ∅ NoJson.

Definition fine : Response :=
  mkResponse 200 "OK" ∅ (Document "{}").

Definition grant (v : string) (seconds : Z) : TokenReply :=
  TokenGranted (mkOAuthToken v "Bearer" seconds None).

Definition get_jobs : PrimeRequestOptions := mkOptions "GET" "jobs" None.

(** A client created at time 0 whose first API request is answered 401 and
    whose second is answered 200; the token endpoint grants one-hour
    tokens. *)
Definition expired_session : World :=
  mkWorld (@newRateLimiter utc 0) newOAuthClient 0
    (mkNetwork [(120, Answered unauthorized); (120, Answered fine)]
       [(80, grant "t1" 3600); (80, grant "t2" 3600)]).


(** A client created at time 0 whose API request is answered 503. *)
Definition outage : World :=
  mkWorld (@newRateLimiter utc 0) newOAuthClient 0
    (mkNetwork [(120, Answered unavailable)] [(80, grant "t1" 3600)]).

(** A client created at time 0 whose credentials the token endpoint
    refuses. *)
Definition locked_out : World :=
  mkWorld (@newRateLimiter utc 0) newOAuthClient 0
    (mkNetwork [(120, Answered fine)]
       [(80, TokenRefused 400
               (Some (mkTokenErrorBody (Some "Invalid credentials") None
                        (Some "invalid_grant"))))]).


End Sample.

Import Js Limiter Loop OAuth Client.

(* ===================================================================== *)
(** * Part II: properties                                                 *)
(* ===================================================================== *)

Example parse1 : parseInt "  -42abc" = Num (-42). Proof. reflexivity. Qed.
Example parse2 : parseInt "abc" = NaN. Proof. reflexivity. Qed.
Example parse3 : parseInt "+7.5" = Num 7. Proof. reflexivity. Qed.
Example parse4 : parseInt "-" = NaN. Proof. reflexivity. Qed.

(** ** [parseInt] reads back every decimal numeral *)

Lemma digit_of_digit_char d : 0 <= d <= 9 -> digit_of (digit_char d) = Some d.
Proof.
  intros Hd. rewrite <- (Z2Nat.id d) by lia.
  assert (Hk : (Z.to_nat d <= 9)%nat) by lia.
  destruct (Z.to_nat d) as [|k]; [vm_compute; reflexivity|].
  do 9 (destruct k as [|k]; [vm_compute; reflexivity|]). lia.
Qed.

(** A digit is neither white space nor a sign. *)
Lemma digit_is_plain c d rest :
  digit_of c = Some d ->
  skip_space (String c rest) = String c rest
  /\ parseInt (String c rest) = match digits None (String c rest) with
                                | Some n => Num n
                                | None => NaN
                                end.
Proof.
  intros Hc. destruct c as [[] [] [] [] [] [] [] []]; try discriminate Hc.
  all: match goal with
       | |- skip_space ?s = _ /\ _ =>
           assert (Hs : skip_space s = s) by reflexivity
       end.
  all: split; [exact Hs|]; unfold parseInt; rewrite Hs; cbv beta iota zeta.
  all: destruct (digits None _) as [n|]; [|reflexivity].
  all: f_equal; lia.
Qed.

Lemma digits_render_digits fuel n tail acc :
  0 <= n -> (Z.to_nat n < fuel)%nat -> default 0 acc = 0 ->
  digits acc (render_digits fuel n tail) = digits (Some n) tail.
Proof.
  revert n tail acc. induction fuel as [|fuel IH]; intros n tail acc Hn Hf Hacc; [lia|].
  cbn [render_digits]. pose proof (Z.mod_pos_bound n 10 ltac:(lia)) as Hm.
  pose proof (Z.div_mod n 10 ltac:(lia)) as Hdm.
  destruct (Z.ltb_spec n 10) as [Hlt|Hge].
  - cbn [digits]. rewrite digit_of_digit_char by lia. rewrite Hacc.
    rewrite Z.mod_small by lia. do 2 f_equal.
  - assert (n / 10 < n) by (apply Z.div_lt; lia).
    assert (0 <= n / 10) by (apply Z.div_pos; lia).
    rewrite (IH (n / 10) _ acc) by (assumption || lia).
    cbn [digits]. rewrite digit_of_digit_char by lia.
    cbn [default from_option id]. do 2 f_equal. lia.
Qed.

Lemma render_digits_head fuel n tail :
  0 <= n ->
  exists c d rest, render_digits (S fuel) n tail = String c rest /\ digit_of c = Some d.
Proof.
  revert n tail. induction fuel as [|fuel IH]; intros n tail Hn.
  - pose proof (Z.mod_pos_bound n 10 ltac:(lia)) as Hm. cbn [render_digits].
    destruct (n <? 10); do 3 eexists; (split; [reflexivity|]);
      apply digit_of_digit_char; lia.
  - pose proof (Z.mod_pos_bound n 10 ltac:(lia)) as Hm.
    change (render_digits (S (S fuel)) n tail)
      with (if n <? 10 then String (digit_char (n mod 10)) tail
            else render_digits (S fuel) (n / 10) (String (digit_char (n mod 10)) tail)).
    destruct (n <? 10).
    + do 3 eexists. split; [reflexivity|]. apply digit_of_digit_char; lia.
    + apply IH. apply Z.div_pos; lia.
Qed.

(** Every integer can be reported: [parseInt] of its numeral is the integer. *)
Lemma parseInt_render (n : Z) : parseInt (render n) = Num n.
Proof.
  unfold render. destruct (Z.ltb_spec n 0) as [Hneg|Hpos].
  - unfold parseInt.
    change (skip_space (String "-" ?r)) with (String "-"%char r).
    cbv beta iota zeta.
    rewrite digits_render_digits by (try reflexivity; lia).
    f_equal. lia.
  - destruct (render_digits_head (Z.to_nat n) n EmptyString Hpos)
      as (c & d & rest & Hr & Hc).
    rewrite Hr. destruct (digit_is_plain c d rest Hc) as [_ ->].
    rewrite <- Hr. rewrite digits_render_digits by (try reflexivity; lia).
    reflexivity.
Qed.

(** ** Facts about [refillTokens], [release] and [updateFromHeaders] *)

Section LimiterFacts.
Context `{Calendar}.

Lemma refillTokens_tokens now s :
  tokens (refillTokens now s) =
    if refillInterval <=? now - lastRefill s
    then Z.min maxTokens (tokens s + (now - lastRefill s) / refillInterval * maxTokens)
    else tokens s.
Proof.
  unfold refillTokens.
  destruct (dailyReset s <=? now); simpl;
    destruct (refillInterval <=? now - lastRefill s); reflexivity.
Qed.

Lemma refillTokens_concurrent now s :
  concurrent (refillTokens now s) = concurrent s
  /\ waitingQueue (refillTokens now s) = waitingQueue s.
Proof.
  unfold refillTokens.
  destruct (dailyReset s <=? now); simpl;
    destruct (refillInterval <=? now - lastRefill s); split; reflexivity.
Qed.

Lemma refillTokens_in_range now s :
  0 <= tokens s <= maxTokens -> 0 <= tokens (refillTokens now s) <= maxTokens.
Proof.
  intros Hs. rewrite refillTokens_tokens.
  destruct (Z.leb_spec refillInterval (now - lastRefill s)) as [Hge|Hlt]; [|exact Hs].
  unfold refillInterval, maxTokens in *.
  assert (1 <= (now - lastRefill s) / 60000) by (apply Z.div_le_lower_bound; lia).
  lia.
Qed.

Lemma refillTokens_lastRefill now s :
  lastRefill (refillTokens now s) =
    if refillInterval <=? now - lastRefill s
    then now - Z.rem (now - lastRefill s) refillInterval
    else lastRefill s.
Proof.
  unfold refillTokens.
  destruct (dailyReset s <=? now); simpl;
    destruct (refillInterval <=? now - lastRefill s); reflexivity.
Qed.

(** One turn of the per-minute wait: the call is admitted, or it sleeps
    again until a full interval after the last refill; and when the timer
    fired a full interval after the last refill, the allowance has grown by
    at least [maxTokens]. *)
Lemma after_sleep_progress now s st' s' :
  acquire_after_sleep now now s = (st', s') ->
  (st' = Acquired /\ 0 < tokens (refillTokens now s))
  \/ exists wake',
       st' = Sleeping wake' /\ s' = refillTokens now s
       /\ lastRefill s' + refillInterval <= wake'
       /\ tokens s' <= 0
       /\ (lastRefill s + refillInterval <= now -> tokens s + maxTokens <= tokens s').
Proof.
  unfold acquire_after_sleep, token_gate. intros Hs.
  pose proof (refillTokens_tokens now s) as Ht.
  pose proof (refillTokens_lastRefill now s) as Hl.
  destruct (Z.leb_spec (tokens (refillTokens now s)) 0) as [Hle|Hgt]; simplify_eq.
  - right. eexists. split; [reflexivity|]. split; [reflexivity|].
    split; [lia|]. split; [exact Hle|]. intros Hfull.
    destruct (Z.leb_spec refillInterval (now - lastRefill s)) as [Hge|Hlt]; [|lia].
    unfold refillInterval, maxTokens in *.
    assert (1 <= (now - lastRefill s) / 60000) by (apply Z.div_le_lower_bound; lia).
    lia.
  - left. split; [reflexivity|exact Hgt].
Qed.

End LimiterFacts.

(** Every synchronous segment of the limiter, unfolded. *)
Ltac bool_to_Z :=
  repeat match goal with
    | H : (_ <=? _) = true |- _ => apply Z.leb_le in H
    | H : (_ <=? _) = false |- _ => apply Z.leb_gt in H
    | H : (_ <? _) = true |- _ => apply Z.ltb_lt in H
    | H : (_ <? _) = false |- _ => apply Z.ltb_ge in H
    | H : (_ =? _) = true |- _ => apply Z.eqb_eq in H
    | H : (_ =? _) = false |- _ => apply Z.eqb_neq in H
    end;
  unfold maxConcurrent, maxTokens, refillInterval, dailyLimit in *.

Ltac limiter_cases :=
  unfold acquire_after_sleep, acquire_after_slot, acquire, slot_gate, token_gate,
    release, consume, refillTokens, updateFromHeaders in *;
  repeat case_match; simplify_eq/=; bool_to_Z; try lia.

(** ** The in-flight count along the event loop *)

Section LoopFacts.
Context `{Calendar}.

Lemma run_app evs1 evs2 p :
  run (evs1 ++ evs2) p = run evs1 p ≫= run evs2.
Proof.
  revert p. induction evs1 as [|e evs1 IH]; intros p; simpl; [reflexivity|].
  destruct (step e p); simpl; [apply IH | reflexivity].
Qed.

(** A property kept by every event holds after every run. *)
Lemma run_invariant (P : Pool -> Prop) (Q : Event -> Prop) :
  (forall e p p', Q e -> P p -> step e p = Some p' -> P p') ->
  forall evs p p', Forall Q evs -> P p -> run evs p = Some p' -> P p'.
Proof.
  intros Hstep evs. induction evs as [|e evs IH]; intros p p' HQ HP Hrun; simpl in Hrun.
  - by simplify_eq.
  - inversion HQ; subst.
    destruct (step e p) as [p1|] eqn:He; [|done].
    apply (IH p1 p'); [assumption| |assumption].
    apply (Hstep e p p1); assumption.
Qed.

Lemma step_concurrent_nonneg e p p' :
  0 <= concurrent (limiter p) -> step e p = Some p' -> 0 <= concurrent (limiter p').
Proof.
  intros Hp Hs. destruct e; simpl in Hs; limiter_cases.
Qed.

(** X9.  The in-flight count never goes below zero, whatever is called and
    however often. *)
Lemma concurrent_never_negative evs now p :
  run evs (start now) = Some p -> 0 <= concurrent (limiter p).
Proof.
  intros Hrun.
  apply (run_invariant (fun p => 0 <= concurrent (limiter p)) (fun _ => True))
    with (evs := evs) (p := start now); [| |simpl; lia|exact Hrun].
  - intros e q q' _. apply step_concurrent_nonneg.
  - apply Forall_forall. done.
Qed.

(** Every event keeps the in-flight count at or below the ceiling, except
    the continuation of a call that slept for the per-minute refill: that
    one increments the count without looking at it again. *)
Lemma step_concurrent_ceiling e p p' :
  wakes_sleeper e p = false ->
  concurrent (limiter p) <= maxConcurrent ->
  step e p = Some p' ->
  concurrent (limiter p') <= maxConcurrent.
Proof.
  intros Hw Hp Hs. unfold maxConcurrent in *.
  destruct e; simpl in Hs, Hw; limiter_cases.
Qed.

Lemma step_tokens_in_range e p p' :
  (forall h v n, e = CallUpdate h ->
     h !! "x-ratelimit-minute-remaining"%string = Some v -> parseInt v = Num n -> 0 <= n) ->
  0 <= tokens (limiter p) <= maxTokens ->
  step e p = Some p' ->
  0 <= tokens (limiter p') <= maxTokens.
Proof.
  intros He Hp Hs.
  pose proof (refillTokens_in_range (clock p) (limiter p) Hp) as Hr.
  destruct e; simpl in Hs.
  - unfold acquire, slot_gate, token_gate, consume in Hs.
    repeat case_match; simplify_eq/=; bool_to_Z; lia.
  - unfold release in Hs. repeat case_match; simplify_eq/=; lia.
  - simplify_eq/=. unfold updateFromHeaders.
    repeat case_match; simpl; try lia.
    all: match goal with
         | Hl : ?h !! "x-ratelimit-minute-remaining"%string = Some ?v,
           Hp' : parseInt ?v = Num ?n |- _ =>
             pose proof (He h v n eq_refl Hl Hp')
         end; lia.
  - by simplify_eq/=.
  - unfold acquire_after_sleep, acquire_after_slot, slot_gate, token_gate, consume in Hs.
    repeat case_match; simplify_eq/=; bool_to_Z; lia.
  - case_match; simplify_eq/=; lia.
Qed.

End LoopFacts.

(** X8.  Along every run in which the server never reports a negative
    per-minute allowance, the local allowance stays between zero and its
    cap. *)
Lemma tokens_always_in_range `{Calendar} evs now p :
  Forall (fun e => forall h v n, e = CallUpdate h ->
            h !! "x-ratelimit-minute-remaining"%string = Some v ->
            parseInt v = Num n -> 0 <= n) evs ->
  run evs (start now) = Some p ->
  0 <= tokens (limiter p) <= maxTokens.
Proof.
  intros Hevs Hrun.
  refine (run_invariant (fun p => 0 <= tokens (limiter p) <= maxTokens) _ _
            evs (start now) p Hevs _ Hrun); [|simpl; unfold maxTokens; lia].
  intros e q q' He Hq Hs. apply (step_tokens_in_range e q q'); assumption.
Qed.

(** C2 (the code breaks the ceiling).  Sixty requests are made and finished
    within the first half minute, which uses up the per-minute allowance; six more
    [acquire()] calls then all pass the concurrency test (nothing is in
    flight) and sleep until the refill; when their timers fire each one is
    admitted without looking at the in-flight count again, which ends at 6,
    above [maxConcurrent] = 5. *)
Theorem C2_six_in_flight_after_refill :
  exists p,
    @run Sample.utc Sample.six_sleepers (@start Sample.utc 0) = Some p
    /\ concurrent (limiter p) = 6
    /\ maxConcurrent < concurrent (limiter p).
Proof.
  eexists. split; [vm_compute; reflexivity|]. split; [reflexivity|]. reflexivity.
Qed.




(** C5.  [updateFromHeaders] sets the per-minute allowance to the minimum of
    the local value and the reported one, so it never raises it, and sets
    the daily count to [dailyLimit] minus the reported daily remainder. *)
Theorem C5_sync_takes_minimum (h : Headers) (s : RateLimiter) :
  (forall v n, h !! "x-ratelimit-minute-remaining"%string = Some v ->
     parseInt v = Num n ->
     tokens (updateFromHeaders h s) = Z.min (tokens s) n)
  /\ tokens (updateFromHeaders h s) <= tokens s
  /\ (forall v n, h !! "x-ratelimit-day-remaining"%string = Some v ->
        parseInt v = Num n ->
        dailyCount (updateFromHeaders h s) = dailyLimit - n).
Proof.
  repeat split.
  - intros v n Hv Hn. unfold updateFromHeaders. rewrite Hv, Hn.
    repeat case_match; simpl; lia.
  - unfold updateFromHeaders. repeat case_match; simpl; lia.
  - intros v n Hv Hn. unfold updateFromHeaders. rewrite Hv, Hn.
    repeat case_match; reflexivity.
Qed.

Lemma C5_sync_takes_minimum_witness :
  let h : Headers := {[ "x-ratelimit-minute-remaining"%string := "10"%string;
                        "x-ratelimit-day-remaining"%string := "4500"%string ]} in
  let s := mkRateLimiter 30 0 17 86400000 2 [] in
  tokens (updateFromHeaders h s) = 10 /\ dailyCount (updateFromHeaders h s) = 500.
Proof.
  intros h s.
  destruct (C5_sync_takes_minimum h s) as (Hmin & _ & Hday).
  split.
  - rewrite (Hmin "10"%string 10); [reflexivity| vm_compute; reflexivity | reflexivity].
  - rewrite (Hday "4500"%string 4500); [reflexivity| vm_compute; reflexivity | reflexivity].
Defined.

(** The same for the numerals of any two integers [m] and [d]: whatever
    integers the server reports, the allowance becomes the minimum and the
    daily count [dailyLimit - d]. *)
Lemma sync_reported_integers (m d : Z) (s : RateLimiter) :
  let h : Headers := {[ "x-ratelimit-minute-remaining"%string := render m;
                        "x-ratelimit-day-remaining"%string := render d ]} in
  tokens (updateFromHeaders h s) = Z.min (tokens s) m
  /\ dailyCount (updateFromHeaders h s) = dailyLimit - d.
Proof.
  intros h. unfold updateFromHeaders, h.
  rewrite lookup_insert_eq, lookup_insert_ne by done.
  rewrite lookup_singleton_eq, !parseInt_render. simpl. split; [lia|reflexivity].
Qed.

(** C10.  A header that is absent or does not parse leaves its counter as it
    was, and [updateFromHeaders] never touches the in-flight count, the two
    timestamps or the waiter queue. *)
Theorem C10_update_frame (h : Headers) (s : RateLimiter) :
  ((forall v, h !! "x-ratelimit-minute-remaining"%string = Some v -> parseInt v = NaN) ->
     tokens (updateFromHeaders h s) = tokens s)
  /\ ((forall v, h !! "x-ratelimit-day-remaining"%string = Some v -> parseInt v = NaN) ->
        dailyCount (updateFromHeaders h s) = dailyCount s)
  /\ concurrent (updateFromHeaders h s) = concurrent s
  /\ lastRefill (updateFromHeaders h s) = lastRefill s
  /\ dailyReset (updateFromHeaders h s) = dailyReset s
  /\ waitingQueue (updateFromHeaders h s) = waitingQueue s.
Proof.
  unfold updateFromHeaders. repeat split.
  - intros Hm. destruct (h !! "x-ratelimit-minute-remaining"%string) as [v|] eqn:Hv.
    + rewrite (Hm v eq_refl). repeat case_match; reflexivity.
    + repeat case_match; reflexivity.
  - intros Hd. destruct (h !! "x-ratelimit-day-remaining"%string) as [v|] eqn:Hv.
    + rewrite (Hd v eq_refl). repeat case_match; reflexivity.
    + repeat case_match; reflexivity.
  - repeat case_match; reflexivity.
  - repeat case_match; reflexivity.
  - repeat case_match; reflexivity.
  - repeat case_match; reflexivity.
Qed.

Lemma C10_update_frame_witness :
  let h : Headers := {[ "x-ratelimit-minute-remaining"%string := "soon"%string ]} in
  let s := mkRateLimiter 30 0 17 86400000 2 [4%nat] in
  updateFromHeaders h s = s.
Proof.
  intros h s.
  destruct (C10_update_frame h s) as (Hm & Hd & Hc & Hl & Hr & Hq).
  assert (Ht : tokens (updateFromHeaders h s) = tokens s).
  { apply Hm. intros v Hv. vm_compute in Hv. injection Hv as <-. reflexivity. }
  assert (Hdc : dailyCount (updateFromHeaders h s) = dailyCount s).
  { apply Hd. intros v Hv. vm_compute in Hv. discriminate Hv. }
  destruct (updateFromHeaders h s); simpl in *. subst. reflexivity.
Defined.

(** ** The daily ceiling *)

Lemma ceil_div_spec (a b : Z) :
  0 < b -> b * (ceil_div a b - 1) < a <= b * ceil_div a b.
Proof.
  intros Hb. unfold ceil_div.
  pose proof (Z.div_mod (- a) b ltac:(lia)) as Hd.
  pose proof (Z.mod_pos_bound (- a) b Hb) as Hm.
  lia.
Qed.

(** C3.  When the daily count has reached [dailyLimit] after the
    recomputation, [acquire()] throws at once: the call ends in [Rejected]
    whatever the in-flight count and the per-minute allowance are, the
    limiter is left exactly as [refillTokens] left it, and [retryAfter] is the
    time from the clock reading [now'] to [dailyReset] in seconds, rounded
    up.  [request()] then throws the
    [RateLimitError] having called nothing but [acquire()]: no token request,
    no API request, no [release()]; this needs no fuel, so nothing was
    waited for. *)
Theorem C3_daily_limit_fails_at_once `{Calendar}
    (fuel self : nat) (options : PrimeRequestOptions) (w : World) :
  let s1 := refillTokens (time w) (rateLimiter w) in
  let waitTime := ceil_div (dailyReset s1 - time w) 1000 in
  dailyLimit <= dailyCount s1 ->
  (forall now',
     acquire self (time w) now' (rateLimiter w)
     = (Rejected (ceil_div (dailyReset s1 - now') 1000), s1))
  /\ 1000 * (waitTime - 1) < dailyReset s1 - time w <= 1000 * waitTime
  /\ exists text,
       request fuel self options w
       = (Threw (RateLimitError text (Num waitTime)), set_rateLimiter s1 w, [DidAcquire]).
Proof.
  intros s1 waitTime Hfull.
  assert (Ha : forall now',
             acquire self (time w) now' (rateLimiter w)
             = (Rejected (ceil_div (dailyReset s1 - now') 1000), s1)).
  { intros now'. unfold acquire. fold s1.
    destruct (Z.leb_spec dailyLimit (dailyCount s1)); [reflexivity|lia]. }
  split; [exact Ha|]. split; [apply ceil_div_spec; lia|].
  eexists. unfold request. rewrite Ha. unfold conclude.
  destruct fuel; simpl; reflexivity.
Qed.

Lemma C3_daily_limit_fails_at_once_witness :
  let w := mkWorld (mkRateLimiter 60 0 5000 86400000 0 []) newOAuthClient 1500
             (network Sample.expired_session) in
  exists text,
    @request Sample.utc 0 0 Sample.get_jobs w
    = (Threw (RateLimitError text (Num 86399)), w, [DidAcquire]).
Proof.
  intros w.
  destruct (@C3_daily_limit_fails_at_once Sample.utc 0 0 Sample.get_jobs w)
    as (_ & _ & text & Hreq).
  - vm_compute. discriminate.
  - exists text. exact Hreq.
Defined.

(** ** Classification of error responses *)

(** A 429 without [Retry-After], or with an empty one, gets 60 seconds. *)
Lemma retry_after_absent (r : Response) :
  status r = 429 ->
  (forall v, headers r !! "retry-after"%string = Some v -> v = ""%string) ->
  exists text, handleErrorResponse r = RateLimitError text (Num 60).
Proof.
  intros Hs Hh. unfold handleErrorResponse. rewrite Hs. simpl.
  destruct (body r); simpl;
    (destruct (headers r !! "retry-after"%string) as [v|] eqn:Hv;
     [rewrite (Hh v eq_refl); simpl|]; eexists; reflexivity).
Qed.

(** A 429 whose [Retry-After] starts with an integer gets that integer. *)
Lemma retry_after_integer (r : Response) (v : string) (n : Z) :
  status r = 429 ->
  headers r !! "retry-after"%string = Some v -> parseInt v = Num n ->
  exists text, handleErrorResponse r = RateLimitError text (Num n).
Proof.
  intros Hs Hv Hn. unfold handleErrorResponse. rewrite Hs, Hv. simpl.
  assert (truthy v = true) as ->.
  { destruct v; [vm_compute in Hn; discriminate|reflexivity]. }
  rewrite Hn. destruct (body r); eexists; reflexivity.
Qed.

(** C6 (the code misses the malformed case).  A 429 whose [Retry-After] is
    present, not empty and without a leading integer raises a
    [RateLimitError] whose [retryAfter] is [NaN], not 60: the result of
    [parseInt] is passed on unchecked. *)
Theorem C6_malformed_retry_after_gives_NaN (r : Response) (v : string) :
  status r = 429 ->
  headers r !! "retry-after"%string = Some v ->
  v <> ""%string ->
  parseInt v = NaN ->
  exists text, handleErrorResponse r = RateLimitError text NaN.
Proof.
  intros Hs Hv Hne Hn. unfold handleErrorResponse. rewrite Hs, Hv. simpl.
  assert (truthy v = true) as -> by (destruct v; [done|reflexivity]).
  rewrite Hn. destruct (body r); eexists; reflexivity.
Qed.

Lemma C6_malformed_retry_after_gives_NaN_witness :
  exists text, handleErrorResponse Sample.throttled_until = RateLimitError text NaN.
Proof.
  apply (C6_malformed_retry_after_gives_NaN Sample.throttled_until
           "Wed, 21 Oct 2015 07:28:00 GMT").
  - reflexivity.
  - vm_compute. reflexivity.
  - discriminate.
  - vm_compute. reflexivity.
Defined.

(** C7 as the code has it.  In the range 500 to 599 only 500, 502, 503 and
    504 are raised as [SERVER_ERROR]; every other status of the range falls
    to the default branch and is raised as [API_ERROR].  Both carry the
    status code. *)
Theorem C7_server_error_statuses (r : Response) :
  500 <= status r <= 599 ->
  exists text details,
    handleErrorResponse r
    = PrimeApiError text
        (if is_gateway_status (status r) then SERVER_ERROR else API_ERROR)
        (status r) details.
Proof.
  intros Hs. unfold handleErrorResponse, is_gateway_status.
  destruct (body r); simpl;
    repeat (case_match; bool_to_Z; try lia);
    try (do 2 eexists; reflexivity).
Qed.

Lemma C7_server_error_statuses_witness :
  exists text details,
    handleErrorResponse Sample.unavailable = PrimeApiError text SERVER_ERROR 503 details.
Proof.
  apply (C7_server_error_statuses Sample.unavailable). simpl. lia.
Defined.

(** C7 as the specification has it fails: 501 is in the range 500 to 599 and
    is raised as [API_ERROR]. *)
Lemma C7_not_every_5xx_is_server_error :
  500 <= status Sample.not_implemented <= 599
  /\ handleErrorResponse Sample.not_implemented
     = PrimeApiError "Prime API error: 501 Not Implemented" API_ERROR 501 None.
Proof.
  split; [simpl; lia|vm_compute; reflexivity].
Qed.

(** ** The token cache *)

Lemma acquireToken_refreshPromise now r c :
  refreshPromise (snd (acquireToken now r c)) = refreshPromise c.
Proof. destruct r as [t|st [b|]|why|]; reflexivity. Qed.



(** ** One acquisition at a time *)

Section TokenFacts.

Lemma tstart_inv now : token_inv (tstart now).
Proof. split; simpl; intros *; rewrite ?lookup_nil; done. Qed.

Lemma enter_path_share w p :
  refreshPromise (client w) = Some p ->
  enter w = mkTokenPool (client w) (tclock w) (acquisitions w) (callers w ++ [Sharing p]).
Proof. intros Hp. unfold enter, getAccessToken_path. rewrite Hp. reflexivity. Qed.

Lemma enter_inv w : token_inv w -> token_inv (enter w).
Proof.
  intros [Hfl Hin Hone]. unfold enter.
  destruct (getAccessToken_path (tclock w) (client w)) as [p|v|] eqn:Hpath.
  - split; simpl.
    + exact Hfl.
    + intros c q Hc. apply lookup_app_Some in Hc as [Hc|[_ Hc]]; [eauto|].
      apply list_lookup_singleton_Some in Hc as [_ Hc]. discriminate.
    + intros c c' q q' Hc Hc'.
      apply lookup_app_Some in Hc as [Hc|[_ Hc]];
        [|apply list_lookup_singleton_Some in Hc as [_ Hc]; discriminate].
      apply lookup_app_Some in Hc' as [Hc'|[_ Hc']];
        [|apply list_lookup_singleton_Some in Hc' as [_ Hc']; discriminate].
      eauto.
  - split; simpl.
    + exact Hfl.
    + intros c q Hc. apply lookup_app_Some in Hc as [Hc|[_ Hc]]; [eauto|].
      apply list_lookup_singleton_Some in Hc as [_ Hc]. discriminate.
    + intros c c' q q' Hc Hc'.
      apply lookup_app_Some in Hc as [Hc|[_ Hc]];
        [|apply list_lookup_singleton_Some in Hc as [_ Hc]; discriminate].
      apply lookup_app_Some in Hc' as [Hc'|[_ Hc']];
        [|apply list_lookup_singleton_Some in Hc' as [_ Hc']; discriminate].
      eauto.
  - assert (Hnone : refreshPromise (client w) = None).
    { unfold getAccessToken_path in Hpath.
      destruct (refreshPromise (client w)); [discriminate|reflexivity]. }
    split; simpl.
    + intros q Hq. apply lookup_app_Some in Hq as [Hq|[Hlen Hq]].
      * apply Hfl in Hq. congruence.
      * apply list_lookup_singleton_Some in Hq as [Hq _]. f_equal. lia.
    + intros c q Hc. apply lookup_app_Some in Hc as [Hc|[Hlen Hc]].
      * apply Hin in Hc. congruence.
      * apply list_lookup_singleton_Some in Hc as [_ Hc]. congruence.
    + intros c c' q q' Hc Hc'.
      apply lookup_app_Some in Hc as [Hc|[Hlen Hc]];
        [apply Hin in Hc; congruence|].
      apply lookup_app_Some in Hc' as [Hc'|[Hlen' Hc']];
        [apply Hin in Hc'; congruence|].
      apply list_lookup_singleton_Some in Hc as [Hc _].
      apply list_lookup_singleton_Some in Hc' as [Hc' _]. lia.
Qed.

Lemma tstep_inv e w w' : token_inv w -> tstep e w = Some w' -> token_inv w'.
Proof.
  intros Hw Hs. destruct e as [| | |p r|c|d]; simpl in Hs.
  - simplify_eq. by apply enter_inv.
  - simplify_eq. apply enter_inv. destruct Hw as [Hfl Hin Hone]. split; simpl; eauto.
  - simplify_eq. destruct Hw as [Hfl Hin Hone]. split; simpl; eauto.
  - destruct (acquisitions w !! p) as [[| |]|] eqn:Hp; try discriminate.
    pose proof (acquireToken_refreshPromise (tclock w) r (client w)) as Hkeep.
    destruct (acquireToken (tclock w) r (client w)) as [res c'] eqn:Hacq.
    simpl in Hkeep. simplify_eq. destruct Hw as [Hfl Hin Hone]. split; simpl.
    + intros q Hq. rewrite Hkeep. apply Hfl.
      destruct (decide (p = q)) as [->|Hne].
      * rewrite list_lookup_insert_eq in Hq by (by eapply lookup_lt_Some).
        destruct res; discriminate.
      * by rewrite list_lookup_insert_ne in Hq.
    + intros c q Hc. rewrite Hkeep. eauto.
    + exact Hone.
  - destruct (callers w !! c) as [[| | p|]|] eqn:Hc; try discriminate.
    destruct (acquisitions w !! p) as [[| |]|] eqn:Hp; try discriminate.
    all: simplify_eq; destruct Hw as [Hfl Hin Hone]; split; simpl.
    all: try (intros q Hq; pose proof (Hfl q Hq) as H1;
              pose proof (Hin c p Hc) as H2; congruence).
    all: try (intros c1 q Hc1;
              destruct (decide (c = c1)) as [->|Hne];
              [rewrite list_lookup_insert_eq in Hc1 by (by eapply lookup_lt_Some);
               discriminate
              |rewrite list_lookup_insert_ne in Hc1 by done;
               pose proof (Hone c c1 p q Hc Hc1); done]).
    all: intros c1 c2 q1 q2 Hc1 Hc2;
         destruct (decide (c = c1)) as [->|Hne1];
         [rewrite list_lookup_insert_eq in Hc1 by (by eapply lookup_lt_Some);
          discriminate|];
         destruct (decide (c = c2)) as [->|Hne2];
         [rewrite list_lookup_insert_eq in Hc2 by (by eapply lookup_lt_Some);
          discriminate|];
         rewrite list_lookup_insert_ne in Hc1 by done;
         rewrite list_lookup_insert_ne in Hc2 by done; eauto.
  - destruct (0 <=? d); simplify_eq. destruct Hw as [Hfl Hin Hone]. split; simpl; eauto.
Qed.

Lemma trun_inv evs w w' : token_inv w -> trun evs w = Some w' -> token_inv w'.
Proof.
  revert w. induction evs as [|e evs IH]; intros w Hw Hrun; simpl in Hrun.
  - by simplify_eq.
  - destruct (tstep e w) as [w1|] eqn:He; [|done].
    apply (IH w1); [by eapply tstep_inv|assumption].
Qed.

(** A list in which all pending entries sit at one index has at most one. *)
Lemma pending_at_most_one (l : list Acquisition) :
  (forall i j, l !! i = Some InFlight -> l !! j = Some InFlight -> i = j) ->
  (length (List.filter pending l) <= 1)%nat.
Proof.
  induction l as [|a l IH]; intros Huniq; simpl; [lia|].
  destruct a; simpl.
  - assert (List.filter pending l = []) as ->; [|simpl; lia].
    destruct (List.filter pending l) as [|b rest] eqn:Hf; [reflexivity|].
    assert (Hb : In b (List.filter pending l)) by (rewrite Hf; left; reflexivity).
    apply filter_In in Hb as [Hb Hpend]. destruct b; try discriminate.
    apply list_elem_of_In, list_elem_of_lookup in Hb as [j Hj].
    specialize (Huniq 0%nat (S j) eq_refl Hj). discriminate.
  - apply IH. intros i j Hi Hj. specialize (Huniq (S i) (S j) Hi Hj). lia.
  - apply IH. intros i j Hi Hj. specialize (Huniq (S i) (S j) Hi Hj). lia.
Qed.

Lemma inv_at_most_one w : token_inv w -> (in_flight w <= 1)%nat.
Proof.
  intros [Hfl _ _]. apply pending_at_most_one.
  intros i j Hi Hj. apply Hfl in Hi, Hj. congruence.
Qed.

(** Calls made one after the other while a promise is in the slot all get
    that promise, and nothing is sent. *)
Lemma calls_share w p n :
  refreshPromise (client w) = Some p ->
  trun (replicate n CallGetAccessToken) w
  = Some (mkTokenPool (client w) (tclock w) (acquisitions w)
            (callers w ++ replicate n (Sharing p))).
Proof.
  revert w. induction n as [|n IH]; intros w Hp; simpl.
  - rewrite app_nil_r. by destruct w.
  - rewrite (enter_path_share w p Hp). rewrite IH by exact Hp. simpl.
    by rewrite <- app_assoc.
Qed.

End TokenFacts.

Lemma trun_app evs1 evs2 w :
  trun (evs1 ++ evs2) w = trun evs1 w ≫= trun evs2.
Proof.
  revert w. induction evs1 as [|e evs1 IH]; intros w; simpl; [reflexivity|].
  destruct (tstep e w); simpl; [apply IH | reflexivity].
Qed.

(** C8.  In every state the client can reach, at most one acquisition is in
    flight.  While one is, every further [getAccessToken()] call is handed
    its promise and sends nothing.  When no credential is cached and nothing
    is in flight, any number of calls made before the reply arrives send
    exactly one request between them, and once the reply has arrived every
    one of them holds the same result, the granted token when the reply
    grants one. *)
Theorem C8_single_acquisition_shared (evs : list TokenEvent) (now : Z) (w : TokenPool) :
  trun evs (tstart now) = Some w ->
  (in_flight w <= 1)%nat
  /\ (forall p n,
        acquisitions w !! p = Some InFlight ->
        trun (replicate n CallGetAccessToken) w
        = Some (mkTokenPool (client w) (tclock w) (acquisitions w)
                  (callers w ++ replicate n (Sharing p))))
  /\ (token (client w) = None -> refreshPromise (client w) = None ->
      forall n r,
        exists w' a,
          trun (replicate (S n) CallGetAccessToken
                  ++ [Settle (length (acquisitions w)) r]) w = Some w'
          /\ acquisitions w' = acquisitions w ++ [a]
          /\ a <> InFlight
          /\ (forall tok, r = TokenGranted tok -> a = Got (access_token tok))
          /\ forall c, (length (callers w) <= c <= length (callers w) + n)%nat ->
               received w' c = Some a).
Proof.
  intros Hrun.
  assert (Hinv : token_inv w) by (eapply trun_inv; [apply tstart_inv|exact Hrun]).
  split; [by apply inv_at_most_one|]. split.
  - intros p n Hp. apply calls_share. by apply (inv_in_flight w Hinv).
  - intros Htok Hnone n r.
    set (p := length (acquisitions w)).
    set (w1 := mkTokenPool (set_refreshPromise (Some p) (client w)) (tclock w)
                 (acquisitions w ++ [InFlight]) (callers w ++ [Initiating p])).
    assert (Hfirst : enter w = w1).
    { unfold enter, getAccessToken_path. rewrite Hnone, Htok. reflexivity. }
    destruct (acquireToken (tclock w) r (set_refreshPromise (Some p) (client w)))
      as [res c'] eqn:Hacq.
    set (a := match res with inl e => Failed e | inr v => Got v end).
    exists (mkTokenPool c' (tclock w) (acquisitions w ++ [a])
              ((callers w ++ [Initiating p]) ++ replicate n (Sharing p))), a.
    split; [|split; [reflexivity|split; [|split]]].
    + rewrite trun_app. cbn [replicate trun tstep]. rewrite Hfirst.
      rewrite (calls_share w1 p n eq_refl). cbn [mbind option_bind trun tstep].
      cbn [acquisitions w1 client tclock callers].
      assert (Hlook : (acquisitions w ++ [InFlight]) !! p = Some InFlight).
      { rewrite lookup_app_r by (unfold p; lia).
        replace (p - length (acquisitions w))%nat with 0%nat by (unfold p; lia).
        reflexivity. }
      rewrite Hlook, Hacq. fold a.
      rewrite insert_app_r_alt by (unfold p; lia).
      replace (p - length (acquisitions w))%nat with 0%nat by (unfold p; lia).
      reflexivity.
    + unfold a. destruct res; discriminate.
    + intros tok ->. unfold a. simpl in Hacq. by simplify_eq.
    + intros c Hc. unfold received. cbn [callers acquisitions].
      assert (Hp : (acquisitions w ++ [a]) !! p = Some a).
      { rewrite lookup_app_r by (unfold p; lia).
        replace (p - length (acquisitions w))%nat with 0%nat by (unfold p; lia).
        reflexivity. }
      rewrite <- app_assoc.
      rewrite lookup_app_r by lia.
      destruct (c - length (callers w))%nat as [|k] eqn:Hk; simpl.
      * exact Hp.
      * rewrite lookup_replicate_2 by lia. exact Hp.
Qed.

(** Three calls made at time 0 on a new client, then the reply. *)
Lemma C8_single_acquisition_shared_witness :
  exists w',
    trun (replicate 3 CallGetAccessToken ++ [Settle 0 (Sample.grant "abc" 3600)]) (tstart 0)
    = Some w'
    /\ acquisitions w' = [Got "abc"%string]
    /\ received w' 0 = Some (Got "abc"%string)
    /\ received w' 1 = Some (Got "abc"%string)
    /\ received w' 2 = Some (Got "abc"%string).
Proof.
  destruct (C8_single_acquisition_shared [] 0 (tstart 0) eq_refl) as (_ & _ & Hall).
  destruct (Hall eq_refl eq_refl 2%nat (Sample.grant "abc" 3600))
    as (w' & a & Hrun & Hacq & _ & Hgot & Hrecv).
  rewrite (Hgot _ eq_refl) in *.
  exists w'. split; [exact Hrun|]. split; [exact Hacq|].
  repeat split; apply Hrecv; simpl; lia.
Defined.

(** ** The retry after a 401 *)

Section RequestFacts.
Context `{Calendar}.

Lemma count_app f tr1 tr2 : count f (tr1 ++ tr2) = (count f tr1 + count f tr2)%nat.
Proof. unfold count. by rewrite List.filter_app, length_app. Qed.




(** [getAccessToken()] run to its end leaves no promise in the slot, and
    what it returns is the cached credential or the one just granted. *)
Lemma getAccessToken_ok w v w' tr :
  getAccessToken w = (TokenOk v, w', tr) ->
  refreshPromise (oauthClient w') = None
  /\ ((tr = [] /\ w' = w /\ exists t, token (oauthClient w) = Some t /\ v = access_token t)
      \/ (exists t, tr = [DidTokenFetch (TokenGranted t)] /\ v = access_token t
                    /\ token (oauthClient w') = Some t)).
Proof.
  unfold getAccessToken, getAccessToken_path. intros Hg.
  destruct (refreshPromise (oauthClient w)) as [p|] eqn:Hp; [discriminate|].
  destruct (token (oauthClient w)) as [t|] eqn:Ht.
  - destruct (time w <? tokenExpiresAt (oauthClient w) - REFRESH_BUFFER_MS).
    + simplify_eq. split; [exact Hp|]. left. eauto.
    + destruct (next_token w) as [r w1].
      destruct r as [t'|st [b|]|why|]; simpl in Hg; simplify_eq.
      split; [reflexivity|]. right. eauto.
  - destruct (next_token w) as [r w1].
    destruct r as [t'|st [b|]|why|]; simpl in Hg; simplify_eq.
    split; [reflexivity|]. right. eauto.
Qed.

Lemma getAccessToken_trace w tk w' tr :
  getAccessToken w = (tk, w', tr) ->
  tr = [] \/ exists r, tr = [DidTokenFetch r].
Proof.
  unfold getAccessToken. intros Hg.
  destruct (getAccessToken_path (time w) (oauthClient w)); simplify_eq; [by left..|].
  destruct (next_token w) as [r w1].
  destruct (acquireToken (time w1) r (oauthClient w1)). simplify_eq. right. eauto.
Qed.

Lemma next_api_frame w reply w' :
  next_api w = (reply, w') ->
  oauthClient w' = oauthClient w /\ rateLimiter w' = rateLimiter w.
Proof.
  unfold next_api. intros Hn.
  destruct (api (network w)) as [|[d r] rest]; by simplify_eq.
Qed.

(** [refreshToken()] on a client with no acquisition in progress always asks
    the token endpoint, and succeeds only with a granted token. *)
Lemma refreshToken_cases w tk w' tr :
  refreshPromise (oauthClient w) = None ->
  refreshToken w = (tk, w', tr) ->
  exists r, tr = [DidTokenFetch r]
    /\ refreshPromise (oauthClient w') = None
    /\ match tk with
       | TokenOk v => exists t, r = TokenGranted t /\ v = access_token t
                                /\ token (oauthClient w') = Some t
       | TokenErr _ => True
       | TokenSuspended => False
       end.
Proof.
  intros Hp. unfold refreshToken, getAccessToken, getAccessToken_path. simpl.
  rewrite Hp. intros Hr.
  destruct (next_token (set_oauthClient (clearToken (oauthClient w)) w)) as [r w1].
  exists r. destruct r as [t|st [b|]|why|]; simpl in Hr; simplify_eq;
    repeat split; eauto.
Qed.

(** The trace of a [try] block that got a token and fetched. *)
Lemma fetched_trace tr0 v reply extra :
  (tr0 = [] \/ exists r0, tr0 = [DidTokenFetch r0]) ->
  let tr := (DidGetAccessToken :: tr0) ++ DidFetch v reply :: extra in
  count is_acquire tr = count is_acquire extra
  /\ count is_release tr = count is_release extra
  /\ count is_refresh tr = count is_refresh extra
  /\ fetches tr = (v, reply) :: fetches extra
  /\ granted tr = granted tr0 ++ granted extra
  /\ after_first_fetch tr = extra.
Proof.
  intros [->|[r0 ->]]; simpl; repeat split; try reflexivity;
    destruct r0; reflexivity.
Qed.

(** The [try] block of a call that must not retry: it never asks for the
    recursive call, never refreshes, fetches at most once, and a 401 answer
    is thrown as [UNAUTHORIZED]. *)
Lemma attempt_final options w r w' tr :
  retry_enabled options = false ->
  attempt options w = (r, w', tr) ->
  exists o, r = Done o
    /\ count is_acquire tr = 0%nat /\ count is_release tr = 0%nat
    /\ count is_refresh tr = 0%nat
    /\ (length (fetches tr) <= 1)%nat
    /\ forall b reply, fetches tr = [(b, reply)] ->
         ((exists t, token (oauthClient w) = Some t /\ b = access_token t)
          \/ b ∈ granted tr)
         /\ (is_401 reply = true -> o = Threw unauthorized_error).
Proof.
  intros Hno Ha. unfold attempt in Ha. rewrite Hno in Ha.
  destruct (getAccessToken w) as [[tk w1] tr0] eqn:Hg.
  pose proof (getAccessToken_trace _ _ _ _ Hg) as Htr0.
  destruct tk as [v|e|].
  - apply getAccessToken_ok in Hg as [_ Hv].
    destruct (next_api w1) as [reply w2] eqn:Hn.
    assert (Hb : (exists t, token (oauthClient w) = Some t /\ v = access_token t)
                 \/ v ∈ granted tr0).
    { destruct Hv as [(_ & _ & t & Ht & Hv)|(t & Htr & Hv & Ht)]; [left; eauto|].
      right. rewrite Htr, Hv. simpl. apply list_elem_of_here. }
    assert (Hshape : exists o extra, r = Done o
              /\ tr = (DidGetAccessToken :: tr0) ++ DidFetch v reply :: extra
              /\ (extra = [] \/ extra = [DidUpdateFromHeaders])
              /\ (is_401 reply = true -> o = Threw unauthorized_error)).
    { destruct reply as [resp|].
      - rewrite andb_false_r in Ha. simpl is_401.
        destruct (ok resp) eqn:Hok; simpl in Ha.
        + assert (H401 : (status resp =? 401) = true -> False).
          { intros H401%Z.eqb_eq. unfold ok in Hok. rewrite H401 in Hok. discriminate. }
          destruct (status resp =? 204) eqn:H204.
          * simplify_eq. do 2 eexists. split; [reflexivity|].
            split; [by rewrite <- app_assoc|]. split; [by right|]. intros []%H401.
          * destruct (body resp); simplify_eq;
              (do 2 eexists; split; [reflexivity|];
               split; [by rewrite <- app_assoc|]; split; [by right|]; intros []%H401).
        + simplify_eq. do 2 eexists. split; [reflexivity|].
          split; [by rewrite <- app_assoc|]. split; [by right|].
          intros H401%Z.eqb_eq. unfold handleErrorResponse. rewrite H401. simpl.
          destruct (body resp); reflexivity.
      - simplify_eq. do 2 eexists. split; [reflexivity|].
        split; [reflexivity|]. split; [by left|]. simpl. discriminate. }
    destruct Hshape as (o & extra & -> & -> & Hextra & H401). exists o.
    destruct (fetched_trace tr0 v reply extra Htr0)
      as (Hacq & Hrel & Href & Hfetch & Hgr & _).
    rewrite Hacq, Hrel, Href, Hfetch, Hgr.
    destruct Hextra as [-> | ->]; simpl;
      (repeat (split; [reflexivity || lia|]);
       intros b reply' Hf; simplify_eq; rewrite app_nil_r;
       split; [exact Hb|exact H401]).
  - simplify_eq. eexists. split; [reflexivity|].
    destruct Htr0 as [->|[r0 ->]]; simpl; repeat split; try lia; intros; discriminate.
  - simplify_eq. eexists. split; [reflexivity|].
    destruct Htr0 as [->|[r0 ->]]; simpl; repeat split; try lia; intros; discriminate.
Qed.

(** The [try] block of a call that may retry: after a 401 answer it
    refreshes the token exactly once, and then either asks for the recursive
    call, holding a freshly granted token, or throws the [OAuthError] of the
    refresh as [AUTH_ERROR]. *)
Lemma attempt_first options w r w' tr :
  retry_enabled options = true ->
  attempt options w = (r, w', tr) ->
  count is_acquire tr = 0%nat /\ count is_release tr = 0%nat
  /\ (length (fetches tr) <= 1)%nat
  /\ (forall b reply rest, fetches tr = (b, reply) :: rest -> is_401 reply = true ->
        count is_refresh tr = 1%nat
        /\ ((r = Retry
             /\ exists t, token (oauthClient w') = Some t
                          /\ access_token t ∈ granted (after_first_fetch tr))
            \/ exists e, r = Done (Threw (auth_error e))))
  /\ (r = Retry -> exists b reply, fetches tr = [(b, reply)] /\ is_401 reply = true).
Proof.
  intros Hyes Ha. unfold attempt in Ha. rewrite Hyes in Ha.
  destruct (getAccessToken w) as [[tk w1] tr0] eqn:Hg.
  pose proof (getAccessToken_trace _ _ _ _ Hg) as Htr0.
  destruct tk as [v|e|].
  - apply getAccessToken_ok in Hg as [Hnone _].
    destruct (next_api w1) as [reply w2] eqn:Hn.
    apply next_api_frame in Hn as [Hoa _].
    assert (Hshape : exists extra,
              tr = (DidGetAccessToken :: tr0) ++ DidFetch v reply :: extra
              /\ count is_acquire extra = 0%nat /\ count is_release extra = 0%nat
              /\ fetches extra = []
              /\ (is_401 reply = true ->
                  count is_refresh extra = 1%nat
                  /\ ((r = Retry
                       /\ exists t, token (oauthClient w') = Some t
                                    /\ access_token t ∈ granted extra)
                      \/ exists e, r = Done (Threw (auth_error e))))
              /\ (r = Retry -> is_401 reply = true)).
    { destruct reply as [resp|].
      - rewrite andb_true_r in Ha. simpl is_401.
        destruct (status resp =? 401) eqn:H401.
        + set (w3 := set_rateLimiter
                       (updateFromHeaders (headers resp) (rateLimiter w2)) w2) in *.
          destruct (refreshToken w3) as [[tk' w4] tr4] eqn:Hr.
          apply refreshToken_cases in Hr as (r' & -> & _ & Htk');
            [|simpl; by rewrite Hoa].
          exists [DidUpdateFromHeaders; DidRefreshToken; DidTokenFetch r'].
          destruct tk' as [v'|e'|]; [| |done].
          * destruct Htk' as (t & -> & -> & Ht). simplify_eq.
            split; [by rewrite <- !app_assoc|]. repeat (split; [reflexivity|]).
            split; [|done]. intros _. split; [reflexivity|]. left.
            split; [reflexivity|]. exists t. split; [exact Ht|]. simpl. apply list_elem_of_here.
          * simplify_eq.
            split; [by rewrite <- !app_assoc|].
            repeat (split; [destruct r'; reflexivity|]).
            split; [|done]. intros _. split; [destruct r'; reflexivity|]. right. eauto.
        + exists [DidUpdateFromHeaders].
          destruct (ok resp); simpl in Ha.
          * destruct (status resp =? 204);
              [|destruct (body resp)]; simplify_eq;
              (split; [by rewrite <- !app_assoc|]; repeat (split; [reflexivity|]);
               split; [discriminate|discriminate]).
          * simplify_eq.
            split; [by rewrite <- !app_assoc|]. repeat (split; [reflexivity|]).
            split; [discriminate|discriminate].
      - simplify_eq. exists []. split; [reflexivity|]. repeat (split; [reflexivity|]).
        simpl. split; [discriminate|discriminate]. }
    destruct Hshape as (extra & -> & Hacq & Hrel & Hfe & H401 & Hretry).
    destruct (fetched_trace tr0 v reply extra Htr0)
      as (Hacq' & Hrel' & Href' & Hfetch' & Hgr' & Hafter').
    rewrite Hacq', Hrel', Href', Hfetch', Hafter', Hacq, Hrel, Hfe.
    split; [reflexivity|]. split; [reflexivity|]. split; [simpl; lia|]. split.
    + intros b reply' rest Hf Hs. simplify_eq. by apply H401.
    + intros Hr. exists v, reply. split; [reflexivity|by apply Hretry].
  - simplify_eq.
    destruct Htr0 as [->|[r0 ->]]; simpl;
      (split; [reflexivity|]; split; [reflexivity|]; split; [lia|];
       split; [intros; discriminate|discriminate]).
  - simplify_eq.
    destruct Htr0 as [->|[r0 ->]]; simpl;
      (split; [reflexivity|]; split; [reflexivity|]; split; [lia|];
       split; [intros; discriminate|discriminate]).
Qed.



(** *** The per-minute wait ends *)

Lemma acquire_resume_settled fuel self st w :
  st = AwaitSlot \/ st = Acquired \/ (exists r, st = Rejected r) ->
  acquire_resume fuel self st w = (st, w).
Proof. intros [->|[->|[r ->]]]; destruct fuel; reflexivity. Qed.

(** A call that sleeps until a full interval after the last refill is
    admitted after at most one turn per [maxTokens] of missing allowance. *)
Lemma sleeping_settles (k : nat) :
  forall self w wake fuel,
    lastRefill (rateLimiter w) + refillInterval <= wake ->
    1 - tokens (rateLimiter w) <= maxTokens * Z.of_nat k ->
    (k < fuel)%nat ->
    exists w', acquire_resume fuel self (Sleeping wake) w = (Acquired, w').
Proof.
  induction k as [|k IH]; intros self w wake fuel Harmed Hk Hfuel.
  - destruct fuel as [|fuel]; [lia|]. cbn [acquire_resume].
    set (now := Z.max (time w) wake).
    destruct (acquire_after_sleep now now (rateLimiter w)) as [st' s'] eqn:Hs.
    apply after_sleep_progress in Hs as [[-> _]|(wake' & -> & -> & _ & Hle & Hgrow)].
    + eexists. apply acquire_resume_settled. auto.
    + unfold maxTokens in *. assert (lastRefill (rateLimiter w) + refillInterval <= now)
        by (unfold now; lia). lia.
  - destruct fuel as [|fuel]; [lia|]. cbn [acquire_resume].
    set (now := Z.max (time w) wake).
    destruct (acquire_after_sleep now now (rateLimiter w)) as [st' s'] eqn:Hs.
    apply after_sleep_progress in Hs as [[-> _]|(wake' & -> & -> & Harmed' & Hle & Hgrow)].
    + eexists. apply acquire_resume_settled. auto.
    + apply IH; simpl; [exact Harmed'| |lia].
      assert (lastRefill (rateLimiter w) + refillInterval <= now) by (unfold now; lia).
      unfold maxTokens in *. lia.
Qed.

(** With enough fuel, [acquire()] continued on its own ends admitted,
    rejected, or waiting for a slot: it never stays asleep. *)
Lemma acquire_resume_settles self st w :
  exists n, forall fuel, (n <= fuel)%nat ->
    exists st' w',
      acquire_resume fuel self st w = (st', w')
      /\ (st' = AwaitSlot \/ st' = Acquired \/ exists r, st' = Rejected r).
Proof.
  assert (Hsleep : forall wake w0, exists n, forall fuel, (n <= fuel)%nat ->
            exists w', acquire_resume fuel self (Sleeping wake) w0 = (Acquired, w')).
  { intros wake w0.
    set (now := Z.max (time w0) wake).
    destruct (acquire_after_sleep now now (rateLimiter w0)) as [st1 s1] eqn:Hs.
    pose proof Hs as Hs'.
    apply after_sleep_progress in Hs' as [[-> _]|(wake' & -> & -> & Harmed & Hle & _)].
    - exists 1%nat. intros fuel Hf. destruct fuel as [|fuel]; [lia|].
      cbn [acquire_resume]. fold now. rewrite Hs. eexists.
      apply acquire_resume_settled. auto.
    - set (k := Z.to_nat (1 - tokens (refillTokens now (rateLimiter w0)))).
      exists (S (S k)). intros fuel Hf. destruct fuel as [|fuel]; [lia|].
      cbn [acquire_resume]. fold now. rewrite Hs.
      apply (sleeping_settles k); simpl; [exact Harmed| |lia].
      unfold maxTokens, k. lia. }
  destruct st as [| |wake| |r].
  - exists 0%nat. intros fuel _. do 2 eexists.
    split; [apply acquire_resume_settled|]; auto.
  - destruct (acquire_after_slot self (time w) (rateLimiter w)) as [st1 s1] eqn:Hg.
    unfold acquire_after_slot, slot_gate, token_gate in Hg.
    destruct (maxConcurrent <=? concurrent (rateLimiter w)) eqn:Hc.
    + exists 1%nat. intros fuel Hf. destruct fuel as [|fuel]; [lia|].
      cbn [acquire_resume]. unfold acquire_after_slot, slot_gate. rewrite Hc.
      simplify_eq. do 2 eexists. split; [apply acquire_resume_settled|]; auto.
    + destruct (tokens (rateLimiter w) <=? 0) eqn:Ht.
      * simplify_eq.
        destruct (Hsleep (time w + Z.max (refillInterval - (time w - lastRefill (rateLimiter w))) 100)
                    (set_rateLimiter (rateLimiter w) w)) as [n Hn].
        exists (S n). intros fuel Hf. destruct fuel as [|fuel]; [lia|].
        cbn [acquire_resume]. unfold acquire_after_slot, slot_gate, token_gate.
        rewrite Hc, Ht. destruct (Hn fuel ltac:(lia)) as [w' Hw'].
        do 2 eexists. split; [exact Hw'|auto].
      * exists 1%nat. intros fuel Hf. destruct fuel as [|fuel]; [lia|].
        cbn [acquire_resume]. unfold acquire_after_slot, slot_gate, token_gate.
        rewrite Hc, Ht. do 2 eexists. split; [apply acquire_resume_settled|]; auto.
  - destruct (Hsleep wake w) as [n Hn]. exists n. intros fuel Hf.
    destruct (Hn fuel Hf) as [w' Hw']. do 2 eexists. split; [exact Hw'|auto].
  - exists 0%nat. intros fuel _. do 2 eexists.
    split; [apply acquire_resume_settled|]; auto.
  - exists 0%nat. intros fuel _. do 2 eexists.
    split; [apply acquire_resume_settled|]; eauto.
Qed.

(** More fuel does not change where [acquire()] ends. *)
Lemma acquire_resume_more fuel :
  forall self st w st' w' k,
    acquire_resume fuel self st w = (st', w') ->
    st' = AwaitSlot \/ st' = Acquired \/ (exists r, st' = Rejected r) ->
    acquire_resume (fuel + k) self st w = (st', w').
Proof.
  induction fuel as [|fuel IH]; intros self st w st' w' k Hr Hst.
  - simpl in Hr. simplify_eq. by apply acquire_resume_settled.
  - cbn [acquire_resume Nat.add] in *.
    destruct st; try (by simplify_eq).
    + destruct (acquire_after_slot self (time w) (rateLimiter w)) as [st1 s1].
      by apply IH.
    + destruct (acquire_after_sleep (Z.max (time w) wake) (Z.max (time w) wake)
                  (rateLimiter w)) as [st1 s1].
      by apply IH.
Qed.

Lemma attempt_not_out_of_fuel options w r w' tr :
  attempt options w = (r, w', tr) -> r <> Done OutOfFuel.
Proof.
  unfold attempt, refreshToken, getAccessToken. intros Ha.
  repeat case_match; simplify_eq; discriminate.
Qed.

Lemma conclude_settles fuel n self options st w st' wa again :
  acquire_resume n self st w = (st', wa) ->
  st' = AwaitSlot \/ st' = Acquired \/ (exists r, st' = Rejected r) ->
  (n <= fuel)%nat ->
  (forall w2 tr, attempt options wa = (Retry, w2, tr) -> (again w2).1.1 <> OutOfFuel) ->
  (conclude fuel self options st w again).1.1 <> OutOfFuel.
Proof.
  intros Hres Hst Hfuel Hagain. unfold conclude.
  replace fuel with (n + (fuel - n))%nat by lia.
  rewrite (acquire_resume_more n self st w st' wa (fuel - n) Hres Hst).
  destruct Hst as [->|[->|[r ->]]]; try (simpl; discriminate).
  destruct (attempt options wa) as [[r w2] tr] eqn:Hat.
  pose proof (attempt_not_out_of_fuel _ _ _ _ _ Hat) as Hne.
  destruct r as [o|].
  - simpl. congruence.
  - specialize (Hagain w2 tr eq_refl). destruct (again w2) as [[o3 w3] tr3]. exact Hagain.
Qed.

Lemma request_again_settles self options w :
  exists n, forall fuel, (n <= fuel)%nat ->
    (request_again fuel self options w).1.1 <> OutOfFuel.
Proof.
  unfold request_again.
  destruct (acquire self (time w) (time w) (rateLimiter w)) as [st s].
  destruct (release s) as [s' woken].
  match goal with
  | |- context [conclude _ _ _ ?stx ?wx _] =>
      destruct (acquire_resume_settles self stx wx) as [n Hn]
  end.
  exists n. intros fuel Hfuel.
  destruct (Hn n (le_n _)) as (st1 & wa & Hres & Hst).
  match goal with
  | |- context [conclude ?f ?i ?op ?stx ?wx ?ag] =>
      pose proof (conclude_settles f n i op stx wx st1 wa ag Hres Hst Hfuel) as Hc;
      destruct (conclude f i op stx wx ag) as [[o1 w1] tr1]
  end.
  simpl in *. apply Hc. intros w2 tr _. discriminate.
Qed.

(** With enough fuel [request()] returns, throws, or waits for another
    task: the model never stops in the middle of the per-minute wait.  (The
    allowance is an integer here; see the note on numbers at the head of the
    file.) *)
Lemma request_settles self options w :
  exists n, forall fuel, (n <= fuel)%nat ->
    (request fuel self options w).1.1 <> OutOfFuel.
Proof.
  unfold request.
  destruct (acquire self (time w) (time w) (rateLimiter w)) as [st s].
  destruct (acquire_resume_settles self st (set_rateLimiter s w)) as [n1 Hn1].
  destruct (Hn1 n1 (le_n _)) as (st1 & wa & Hres1 & Hst1).
  destruct (attempt options wa) as [[r w2] tra] eqn:Hat.
  destruct (request_again_settles (S self) options w2) as [n2 Hn2].
  exists (n1 + n2)%nat. intros fuel Hfuel.
  match goal with
  | |- context [conclude ?f ?i ?op ?stx ?wx ?ag] =>
      pose proof (conclude_settles f n1 i op stx wx st1 wa ag Hres1 Hst1 ltac:(lia)) as Hc;
      destruct (conclude f i op stx wx ag) as [[o1 w1] tr1]
  end.
  simpl in *. apply Hc. intros w2' tr' Hat'.
  rewrite Hat in Hat'. simplify_eq. apply Hn2. lia.
Qed.

End RequestFacts.

(** *** What follows the 401 *)

Section RetryFacts.
Context `{Calendar}.





End RetryFacts.




(** ** From [handleErrorResponse] to [request] *)

(** A response that is not [ok], and is not a 401 to be retried, ends the
    [try] block with what [handleErrorResponse] throws; [request()] throws
    the same after releasing its slot. *)
Lemma attempt_throws_classified `{Calendar} options w v w1 tr0 resp w2 :
  getAccessToken w = (TokenOk v, w1, tr0) ->
  next_api w1 = (Answered resp, w2) ->
  ok resp = false ->
  (status resp =? 401) && retry_enabled options = false ->
  exists w' tr,
    attempt options w = (Done (Threw (handleErrorResponse resp)), w', tr).
Proof.
  intros Hg Hn Hok H401. unfold attempt. rewrite Hg, Hn, H401, Hok. simpl.
  do 2 eexists. reflexivity.
Qed.

(** X11.  A request that was admitted, got a token and was answered with a
    status that is not [ok] (a 401 only when the retry is off) throws exactly
    what [handleErrorResponse] makes of that response, and releases its slot
    once. *)
Lemma request_throws_classified `{Calendar} fuel self options w s v w1 tr0 resp w2 :
  acquire self (time w) (time w) (rateLimiter w) = (Acquired, s) ->
  getAccessToken (set_rateLimiter s w) = (TokenOk v, w1, tr0) ->
  next_api w1 = (Answered resp, w2) ->
  ok resp = false ->
  (status resp =? 401) && retry_enabled options = false ->
  exists w' tr,
    request fuel self options w = (Threw (handleErrorResponse resp), w', tr)
    /\ count is_release tr = 1%nat.
Proof.
  intros Ha Hg Hn Hok H401.
  destruct (attempt_throws_classified options _ _ _ _ _ _ Hg Hn Hok H401)
    as (w' & tr & Hat).
  assert (Hrel : count is_release tr = 0%nat).
  { destruct (retry_enabled options) eqn:Hre.
    - by apply attempt_first in Hat as (_ & ? & _).
    - by apply attempt_final in Hat as (? & _ & _ & ? & _). }
  unfold request. rewrite Ha. unfold conclude.
  assert (Hres : acquire_resume fuel self Acquired (set_rateLimiter s w)
                 = (Acquired, set_rateLimiter s w)) by (destruct fuel; reflexivity).
  rewrite Hres, Hat. do 2 eexists. split; [reflexivity|].
  change (DidAcquire :: tr ++ [DidRelease]) with ([DidAcquire] ++ tr ++ [DidRelease]).
  rewrite !count_app, Hrel. reflexivity.
Qed.

(* ===================================================================== *)
(** * Part III: the code around the claims                                *)
(* ===================================================================== *)

(** ** Reading and using the limiter *)

Section LimiterUse.
Context `{Calendar}.

(** Before the daily reset and before a full interval has passed,
    [refillTokens()] changes nothing. *)
Lemma refillTokens_not_due now s :
  now < dailyReset s -> now - lastRefill s < refillInterval ->
  refillTokens now s = s.
Proof.
  intros Hd Hr. unfold refillTokens.
  destruct (Z.leb_spec (dailyReset s) now); [lia|].
  destruct (Z.leb_spec refillInterval (now - lastRefill s)); [lia|reflexivity].
Qed.

(** Before the daily reset [refillTokens()] leaves the daily counters. *)
Lemma refillTokens_daily now s :
  now < dailyReset s ->
  dailyCount (refillTokens now s) = dailyCount s
  /\ dailyReset (refillTokens now s) = dailyReset s.
Proof.
  intros Hd. unfold refillTokens.
  destruct (Z.leb_spec (dailyReset s) now); [lia|].
  destruct (refillInterval <=? now - lastRefill s); split; reflexivity.
Qed.

(** The daily count after [refillTokens()] is the old one or zero. *)
Lemma refillTokens_dailyCount now s :
  dailyCount (refillTokens now s) = dailyCount s \/ dailyCount (refillTokens now s) = 0.
Proof.
  unfold refillTokens.
  destruct (dailyReset s <=? now); simpl;
    destruct (refillInterval <=? now - lastRefill s); simpl; auto.
Qed.

(** A second [refillTokens()] at the same instant changes nothing. *)
Lemma refillTokens_again now s :
  now < getNextMidnight now ->
  refillTokens now (refillTokens now s) = refillTokens now s.
Proof.
  intros Hmid. destruct s as [t l dc dr c q].
  assert (Hrem : 0 <= now - l -> 0 <= Z.rem (now - l) 60000 < 60000)
    by (intros; apply Z.rem_bound_pos; lia).
  unfold refillTokens; simpl.
  repeat case_match; simplify_eq/=; bool_to_Z; try lia; try reflexivity.
Qed.

End LimiterUse.

(** X1.  The two readings of the status tool agree: at one instant (the
    host's next midnight lying ahead), [getStatus()] called again returns the
    same snapshot and leaves the limiter as it is, and [isNearLimit()] answers
    exactly whether the snapshot shows at most 5 calls left in the minute or
    at most 100 left in the day. *)
Theorem status_readings_agree `{Calendar} now s :
  now < getNextMidnight now ->
  getStatus now (getStatus now s).2 = getStatus now s
  /\ isNearLimit now (getStatus now s).2
     = ((tokensRemaining (getStatus now s).1 <=? 5)
        || (dailyRemaining (getStatus now s).1 <=? 100),
        (getStatus now s).2).
Proof.
  intros Hmid. unfold getStatus, isNearLimit. cbn [fst snd].
  rewrite (refillTokens_again now s Hmid). split; reflexivity.
Qed.

(** X2.  A daily remainder of zero or less reported by the server is
    honoured by the next [acquire()] before the daily reset: it throws at
    once, with the seconds until the reset (at least one) as [retryAfter],
    and takes no slot. *)
Theorem reported_day_exhaustion_rejects `{Calendar} (h : Headers) s v d i now :
  h !! "x-ratelimit-day-remaining"%string = Some v ->
  parseInt v = Num d ->
  d <= 0 ->
  now < dailyReset s ->
  exists s',
    acquire i now now (updateFromHeaders h s)
      = (Rejected (ceil_div (dailyReset s - now) 1000), s')
    /\ 1 <= ceil_div (dailyReset s - now) 1000
    /\ concurrent s' = concurrent s
    /\ waitingQueue s' = waitingQueue s.
Proof.
  intros Hv Hd Hle Hnow.
  set (s0 := updateFromHeaders h s).
  assert (Hdc : dailyCount s0 = dailyLimit - d).
  { unfold s0, updateFromHeaders. rewrite Hv, Hd. repeat case_match; reflexivity. }
  assert (Hdr : dailyReset s0 = dailyReset s).
  { unfold s0, updateFromHeaders. repeat case_match; reflexivity. }
  assert (Hc : concurrent s0 = concurrent s /\ waitingQueue s0 = waitingQueue s).
  { unfold s0, updateFromHeaders. repeat case_match; split; reflexivity. }
  destruct (refillTokens_daily now s0 ltac:(lia)) as [Hdc1 Hdr1].
  destruct (refillTokens_concurrent now s0) as [Hc1 Hq1].
  exists (refillTokens now s0). unfold acquire.
  destruct (Z.leb_spec dailyLimit (dailyCount (refillTokens now s0))) as [_|Hlt]; [|lia].
  rewrite Hdr1, Hdr. split; [reflexivity|].
  split; [|split; [rewrite Hc1; apply Hc | rewrite Hq1; apply Hc]].
  pose proof (ceil_div_spec (dailyReset s - now) 1000 ltac:(lia)). lia.
Qed.

Lemma reported_day_exhaustion_rejects_witness :
  exists s',
    @acquire Sample.utc 7 1000 1000
      (updateFromHeaders {[ "x-ratelimit-day-remaining"%string := "0"%string ]}
         (mkRateLimiter 30 0 17 86400000 2 []))
      = (Rejected (ceil_div (86400000 - 1000) 1000), s')
    /\ 1 <= ceil_div (86400000 - 1000) 1000
    /\ concurrent s' = 2
    /\ waitingQueue s' = [].
Proof.
  apply (@reported_day_exhaustion_rejects Sample.utc
           {[ "x-ratelimit-day-remaining"%string := "0"%string ]}
           (mkRateLimiter 30 0 17 86400000 2 []) "0"%string 0 7%nat 1000);
    [reflexivity | vm_compute; reflexivity | lia | simpl; lia].
Defined.

(** Taking a request's two counters and giving the slot back. *)
Lemma serve_step `{Calendar} now s :
  now < dailyReset s -> now - lastRefill s < refillInterval ->
  0 <= concurrent s < maxConcurrent -> waitingQueue s = [] ->
  1 <= tokens s -> dailyCount s < dailyLimit ->
  acquire 0 now now s = (Acquired, consume s)
  /\ (release (consume s)).1
     = mkRateLimiter (tokens s - 1) (lastRefill s) (dailyCount s + 1) (dailyReset s)
         (concurrent s) [].
Proof.
  intros Hd Hr Hc Hq Ht Hdc. split.
  - unfold acquire. rewrite (refillTokens_not_due now s Hd Hr).
    unfold slot_gate, token_gate.
    destruct (Z.leb_spec dailyLimit (dailyCount s)); [lia|].
    destruct (Z.leb_spec maxConcurrent (concurrent s)); [lia|].
    destruct (Z.leb_spec (tokens s) 0); [lia|]. reflexivity.
  - unfold release, consume, set_concurrent, set_dailyCount, set_tokens. simpl.
    rewrite Hq. simpl. f_equal. lia.
Qed.

(** X3.  Requests that are made and finished one after the other inside one
    refill interval and before the daily reset, on a limiter with a free
    slot and enough allowance, are all admitted without waiting; each costs
    one call of the minute and one of the day, and the in-flight count ends
    where it began. *)
Theorem served_requests_are_counted `{Calendar} nows s :
  Forall (fun now => now < dailyReset s /\ now - lastRefill s < refillInterval) nows ->
  0 <= concurrent s < maxConcurrent ->
  waitingQueue s = [] ->
  Z.of_nat (length nows) <= tokens s ->
  dailyCount s + Z.of_nat (length nows) <= dailyLimit ->
  Usage.serve nows s
    = Some (mkRateLimiter (tokens s - Z.of_nat (length nows)) (lastRefill s)
              (dailyCount s + Z.of_nat (length nows)) (dailyReset s)
              (concurrent s) []).
Proof.
  revert s. induction nows as [|now nows IH]; intros s Hall Hc Hq Ht Hdc.
  - simpl. destruct s; simpl in *. subst. f_equal. f_equal; lia.
  - inversion Hall as [|? ? [Hd Hr] Hrest]; subst.
    cbn [length] in Ht, Hdc.
    destruct (serve_step now s Hd Hr Hc Hq ltac:(lia) ltac:(lia)) as [Ha Hrel].
    cbn [Usage.serve]. rewrite Ha, Hrel.
    rewrite IH; simpl; try lia; try reflexivity; [|exact Hrest].
    cbn [length]. f_equal. f_equal; lia.
Qed.

Lemma served_requests_are_counted_witness :
  @Usage.serve Sample.utc [100; 700; 59999] (mkRateLimiter 60 0 10 86400000 2 [])
    = Some (mkRateLimiter 57 0 13 86400000 2 []).
Proof.
  apply (@served_requests_are_counted Sample.utc [100; 700; 59999]
           (mkRateLimiter 60 0 10 86400000 2 [])).
  - repeat constructor; simpl; lia.
  - simpl. unfold maxConcurrent. lia.
  - reflexivity.
  - simpl. lia.
  - simpl. unfold dailyLimit. lia.
Defined.

(** X4.  A call that finds the allowance of the minute used up does not
    throw and takes no slot yet: it sleeps at least 100 ms and at least
    until one interval after the last refill, and when its timer fires, then
    or later, it is admitted at once with a full allowance less its own
    call (nothing else having touched the limiter meanwhile). *)
Theorem minute_wait_ends_at_first_wake `{Calendar} i now s wake s1 t :
  0 <= tokens s ->
  acquire i now now s = (Sleeping wake, s1) ->
  wake <= t ->
  now + 100 <= wake
  /\ lastRefill s1 + refillInterval <= wake
  /\ concurrent s1 = concurrent s
  /\ exists s2,
       acquire_after_sleep t t s1 = (Acquired, s2)
       /\ tokens s2 = maxTokens - 1
       /\ concurrent s2 = concurrent s + 1.
Proof.
  intros Ht Ha Hwake.
  pose proof (refillTokens_tokens now s) as Htok.
  destruct (refillTokens_concurrent now s) as [Hc _].
  unfold acquire, slot_gate, token_gate in Ha.
  destruct (dailyLimit <=? dailyCount (refillTokens now s)); [discriminate|].
  destruct (maxConcurrent <=? concurrent (refillTokens now s)); [discriminate|].
  destruct (Z.leb_spec (tokens (refillTokens now s)) 0) as [Hle|Hgt]; [|discriminate].
  injection Ha as <- <-.
  assert (Hzero : tokens (refillTokens now s) = 0).
  { destruct (Z.leb_spec refillInterval (now - lastRefill s)) as [Hge|Hlt]; [|lia].
    unfold refillInterval, maxTokens in *.
    assert (1 <= (now - lastRefill s) / 60000) by (apply Z.div_le_lower_bound; lia).
    lia. }
  set (s1 := refillTokens now s) in *.
  split; [lia|]. split; [unfold refillInterval in *; lia|]. split; [exact Hc|].
  pose proof (refillTokens_tokens t s1) as Htok2.
  destruct (refillTokens_concurrent t s1) as [Hc2 _].
  unfold acquire_after_sleep, token_gate.
  destruct (Z.leb_spec refillInterval (t - lastRefill s1)) as [Hge|Hlt];
    [|unfold refillInterval in *; lia].
  assert (Hfull : tokens (refillTokens t s1) = maxTokens).
  { rewrite Htok2, Hzero. unfold refillInterval, maxTokens in *.
    assert (1 <= (t - lastRefill s1) / 60000) by (apply Z.div_le_lower_bound; lia).
    lia. }
  destruct (Z.leb_spec (tokens (refillTokens t s1)) 0) as [Hbad|_];
    [unfold maxTokens in *; lia|].
  eexists. split; [reflexivity|]. unfold consume. simpl.
  rewrite Hfull, Hc2, Hc. split; reflexivity.
Qed.

Lemma minute_wait_ends_at_first_wake_witness :
  30000 + 100 <= 60000
  /\ exists s2,
       @acquire_after_sleep Sample.utc 60000 60000 (mkRateLimiter 0 0 60 86400000 0 [])
         = (Acquired, s2)
       /\ tokens s2 = maxTokens - 1
       /\ concurrent s2 = 0 + 1.
Proof.
  destruct (@minute_wait_ends_at_first_wake Sample.utc 3%nat 30000
              (mkRateLimiter 0 0 60 86400000 0 []) 60000
              (mkRateLimiter 0 0 60 86400000 0 []) 60000)
    as (H1 & _ & _ & H2); [simpl; lia | vm_compute; reflexivity | lia |].
  split; [exact H1 | exact H2].
Defined.

Lemma status_readings_agree_witness :
  @getStatus Sample.utc 90000
    (@getStatus Sample.utc 90000 (mkRateLimiter 3 0 4950 86400000 1 [])).2
  = @getStatus Sample.utc 90000 (mkRateLimiter 3 0 4950 86400000 1 [])
  /\ @isNearLimit Sample.utc 90000
       (@getStatus Sample.utc 90000 (mkRateLimiter 3 0 4950 86400000 1 [])).2
     = ((tokensRemaining
           (@getStatus Sample.utc 90000 (mkRateLimiter 3 0 4950 86400000 1 [])).1 <=? 5)
        || (dailyRemaining
              (@getStatus Sample.utc 90000 (mkRateLimiter 3 0 4950 86400000 1 [])).1 <=? 100),
        (@getStatus Sample.utc 90000 (mkRateLimiter 3 0 4950 86400000 1 [])).2).
Proof.
  apply (@status_readings_agree Sample.utc 90000 (mkRateLimiter 3 0 4950 86400000 1 [])).
  vm_compute. reflexivity.
Defined.

(** ** The queue of waiters *)

(** [n] calls of [release()] call the first [n] callbacks of the queue. *)
Lemma releases_take n s : (Usage.releases n s).1 = take n (waitingQueue s).
Proof.
  revert s. induction n as [|n IH]; intros s; [reflexivity|].
  cbn [Usage.releases].
  destruct (release s) as [s1 woken] eqn:Hr.
  specialize (IH s1). destruct (Usage.releases n s1) as [ws s2]. simpl in IH. subst ws.
  unfold release in Hr. simpl in Hr.
  destruct (waitingQueue s) as [|x rest] eqn:Hq; simplify_eq; simpl.
  - rewrite Hq. by rewrite take_nil.
  - reflexivity.
Qed.

(** With every slot taken and the day not used up, each arriving call is
    put at the end of the queue. *)
Lemma arrivals_queue `{Calendar} now ids :
  forall s,
    maxConcurrent <= concurrent s -> dailyCount s < dailyLimit ->
    (Usage.arrivals now ids s).1 = replicate (length ids) AwaitSlot
    /\ waitingQueue (Usage.arrivals now ids s).2 = waitingQueue s ++ ids
    /\ concurrent (Usage.arrivals now ids s).2 = concurrent s.
Proof.
  induction ids as [|i ids IH]; intros s Hc Hd.
  - simpl. rewrite app_nil_r. done.
  - cbn [Usage.arrivals]. unfold acquire, slot_gate.
    destruct (refillTokens_concurrent now s) as [Hc1 Hq1].
    assert (Hd1 : dailyCount (refillTokens now s) < dailyLimit).
    { destruct (refillTokens_dailyCount now s) as [->| ->]; [exact Hd|].
      unfold dailyLimit. lia. }
    destruct (Z.leb_spec dailyLimit (dailyCount (refillTokens now s))); [lia|].
    destruct (Z.leb_spec maxConcurrent (concurrent (refillTokens now s))); [|lia].
    match goal with
    | |- context [Usage.arrivals now ids ?s1] =>
        destruct (IH s1) as (Hst & Hq & Hcc); [simpl; lia | simpl; lia |];
        destruct (Usage.arrivals now ids s1) as [sts s2]
    end.
    simpl in *. rewrite Hst, Hq, Hcc, Hq1, Hc1, <- app_assoc. done.
Qed.

(** X5.  Waiters are served first come, first served.  While every slot is
    taken (and the day is not used up), the calls that arrive are all
    suspended, none is admitted, and the [release()] calls that follow wake
    them one at a time in the order of arrival, those already waiting
    first. *)
Theorem waiters_are_woken_in_arrival_order `{Calendar} now ids s :
  maxConcurrent <= concurrent s ->
  dailyCount s < dailyLimit ->
  (Usage.arrivals now ids s).1 = replicate (length ids) AwaitSlot
  /\ (Usage.releases (length (waitingQueue s ++ ids)) (Usage.arrivals now ids s).2).1
     = waitingQueue s ++ ids.
Proof.
  intros Hc Hd. destruct (arrivals_queue now ids s Hc Hd) as (Hst & Hq & _).
  split; [exact Hst|]. rewrite releases_take, Hq. apply firstn_all.
Qed.

Lemma waiters_are_woken_in_arrival_order_witness :
  (@Usage.arrivals Sample.utc 500 [11; 12; 13]%nat
     (mkRateLimiter 40 0 20 86400000 5 [10%nat])).1
  = replicate 3 AwaitSlot
  /\ (Usage.releases 4
       (@Usage.arrivals Sample.utc 500 [11; 12; 13]%nat
          (mkRateLimiter 40 0 20 86400000 5 [10%nat])).2).1
     = [10; 11; 12; 13]%nat.
Proof.
  apply (@waiters_are_woken_in_arrival_order Sample.utc 500 [11; 12; 13]%nat
           (mkRateLimiter 40 0 20 86400000 5 [10%nat])).
  - vm_compute. discriminate.
  - vm_compute. reflexivity.
Defined.

(** ** The ceiling on requests in flight, where it holds *)

Lemma quiet_run_ceiling `{Calendar} evs :
  forall p p',
    0 <= concurrent (limiter p) <= maxConcurrent ->
    quiet evs p = true -> run evs p = Some p' ->
    0 <= concurrent (limiter p') <= maxConcurrent.
Proof.
  induction evs as [|e evs IH]; intros p p' Hp Hq Hrun; simpl in Hq, Hrun.
  - by simplify_eq.
  - apply andb_prop in Hq as [Hw Hq]. apply negb_true_iff in Hw.
    destruct (step e p) as [p1|] eqn:He; [|discriminate].
    apply (IH p1 p'); [|exact Hq|exact Hrun]. split.
    + apply (step_concurrent_nonneg e p p1); [lia|exact He].
    + apply (step_concurrent_ceiling e p p1); [exact Hw|lia|exact He].
Qed.

(** X6.  As long as no call has had to sleep for the refill of the minute
    and been resumed, the number of requests in flight stays between zero
    and [maxConcurrent], whatever is called, in whatever order and however
    often. *)
Theorem ceiling_holds_while_nobody_sleeps `{Calendar} evs now p :
  quiet evs (start now) = true ->
  run evs (start now) = Some p ->
  0 <= concurrent (limiter p) <= maxConcurrent.
Proof.
  intros Hq Hrun.
  apply (quiet_run_ceiling evs (start now) p); [|exact Hq|exact Hrun].
  simpl. unfold maxConcurrent. lia.
Qed.

Lemma ceiling_holds_while_nobody_sleeps_witness :
  exists p,
    @run Sample.utc Sample.seven_callers (@start Sample.utc 0) = Some p
    /\ calls p !! 5%nat = Some Acquired
    /\ calls p !! 6%nat = Some AwaitSlot
    /\ 0 <= concurrent (limiter p) <= maxConcurrent.
Proof.
  eexists. split; [vm_compute; reflexivity|].
  split; [reflexivity|]. split; [reflexivity|].
  apply (@ceiling_holds_while_nobody_sleeps Sample.utc Sample.seven_callers 0);
    vm_compute; reflexivity.
Defined.

Lemma tokens_always_in_range_witness :
  exists p,
    @run Sample.utc Sample.synced_calls (@start Sample.utc 0) = Some p
    /\ 0 <= tokens (limiter p) <= maxTokens.
Proof.
  eexists. split; [vm_compute; reflexivity|].
  apply (@tokens_always_in_range Sample.utc Sample.synced_calls 0);
    [|vm_compute; reflexivity].
  unfold Sample.synced_calls.
  repeat (apply Forall_cons; split; [intros h v n He Hh Hv; try discriminate He|]);
    try (apply Forall_nil; exact I).
  - injection He as <-. vm_compute in Hh. injection Hh as <-.
    vm_compute in Hv. injection Hv as <-. lia.
  - injection He as <-. vm_compute in Hh. injection Hh as <-.
    vm_compute in Hv. injection Hv as <-. lia.
Defined.

Lemma concurrent_never_negative_witness :
  exists p,
    @run Sample.utc Sample.synced_calls (@start Sample.utc 0) = Some p
    /\ 0 <= concurrent (limiter p).
Proof.
  eexists. split; [vm_compute; reflexivity|].
  apply (@concurrent_never_negative Sample.utc Sample.synced_calls 0).
  vm_compute. reflexivity.
Defined.

(** ** What a request does with its slot *)

Section RequestUse.
Context `{Calendar}.

Lemma updateFromHeaders_concurrent (h : Headers) s :
  concurrent (updateFromHeaders h s) = concurrent s.
Proof. unfold updateFromHeaders. repeat case_match; reflexivity. Qed.

(** [acquire()] takes a slot exactly when it returns. *)
Lemma acquire_held i now now' s st s' :
  acquire i now now' s = (st, s') -> concurrent s' = concurrent s + Usage.held st.
Proof. intros Ha. unfold Usage.held. limiter_cases. Qed.

Lemma slot_gate_held i now s st s' :
  slot_gate i now s = (st, s') -> concurrent s' = concurrent s + Usage.held st.
Proof. intros Ha. unfold Usage.held. limiter_cases. Qed.

Lemma after_sleep_held now now' s st s' :
  acquire_after_sleep now now' s = (st, s') ->
  concurrent s' = concurrent s + Usage.held st.
Proof. intros Ha. unfold Usage.held. limiter_cases. Qed.

Lemma acquire_resume_held fuel :
  forall self st w st' w',
    acquire_resume fuel self st w = (st', w') ->
    concurrent (rateLimiter w') - Usage.held st'
    = concurrent (rateLimiter w) - Usage.held st.
Proof.
  induction fuel as [|fuel IH]; intros self st w st' w' Hr; simpl in Hr.
  - by simplify_eq.
  - destruct st; try (by simplify_eq).
    + destruct (acquire_after_slot self (time w) (rateLimiter w)) as [st1 s1] eqn:Hg.
      apply slot_gate_held in Hg. apply IH in Hr. simpl in *. lia.
    + destruct (acquire_after_sleep (Z.max (time w) wake) (Z.max (time w) wake)
                  (rateLimiter w)) as [st1 s1] eqn:Hg.
      apply after_sleep_held in Hg. apply IH in Hr. simpl in *. lia.
Qed.

(** The [try] block leaves the in-flight count alone. *)
Lemma attempt_concurrent options w r w' tr :
  attempt options w = (r, w', tr) ->
  concurrent (rateLimiter w') = concurrent (rateLimiter w).
Proof.
  unfold attempt, refreshToken, getAccessToken, next_api, next_token. intros Ha.
  repeat case_match; simplify_eq/=;
    rewrite ?updateFromHeaders_concurrent; reflexivity.
Qed.

Lemma conclude_restores fuel self options st w again o w' tr c :
  0 <= c ->
  concurrent (rateLimiter w) - Usage.held st = c ->
  (forall w2 o2 w3 tr2,
     concurrent (rateLimiter w2) = c + 1 -> again w2 = (o2, w3, tr2) ->
     o2 <> Suspended -> o2 <> OutOfFuel -> concurrent (rateLimiter w3) = c) ->
  conclude fuel self options st w again = (o, w', tr) ->
  o <> Suspended -> o <> OutOfFuel ->
  concurrent (rateLimiter w') = c.
Proof.
  intros Hc Hw Hagain Hcon Hs Hf. unfold conclude in Hcon.
  destruct (acquire_resume fuel self st w) as [st1 w1] eqn:Hr.
  apply acquire_resume_held in Hr.
  destruct st1; simpl in Hr; simplify_eq; try done; [|lia].
  destruct (attempt options w1) as [[r w2] tra] eqn:Hat.
  apply attempt_concurrent in Hat.
  destruct r as [o1|].
  - simplify_eq. unfold release_slot, release. simpl.
    destruct (waitingQueue (rateLimiter w2)); simpl; lia.
  - destruct (again w2) as [[o3 w3] tr3] eqn:Hag. simplify_eq.
    apply (Hagain w2 o w' tr3); [lia|exact Hag|exact Hs|exact Hf].
Qed.

Lemma request_again_restores fuel self options w o w' tr :
  1 <= concurrent (rateLimiter w) ->
  request_again fuel self options w = (o, w', tr) ->
  o <> Suspended -> o <> OutOfFuel ->
  concurrent (rateLimiter w') = concurrent (rateLimiter w) - 1.
Proof.
  intros Hc Hreq Hs Hf. unfold request_again in Hreq.
  destruct (acquire self (time w) (time w) (rateLimiter w)) as [st s] eqn:Ha.
  apply acquire_held in Ha.
  destruct (release s) as [s' woken] eqn:Hrel.
  assert (Hs' : concurrent s' = concurrent s - 1).
  { assert (0 <= Usage.held st) by (destruct st; simpl; lia).
    unfold release in Hrel. repeat case_match; simplify_eq/=; lia. }
  match type of Hreq with
  | context [conclude ?f ?i ?op ?stx ?wx ?ag] =>
      destruct (conclude f i op stx wx ag) as [[o1 w1] tr1] eqn:Hcon;
      assert (Hst : Usage.held stx = Usage.held st)
        by (destruct st; try reflexivity; destruct (waitingQueue (rateLimiter w));
            reflexivity)
  end.
  simplify_eq.
  refine (conclude_restores _ _ _ _ _ _ _ _ _ _ _ _ _ Hcon Hs Hf).
  - lia.
  - simpl. lia.
  - intros w2 o2 w3 tr2 _ Hag Hs2 _. exfalso. apply Hs2. congruence.
Qed.

End RequestUse.

(** X7.  [request()] gives back the slot it took.  On a limiter whose
    in-flight count is not negative, a request that returns or throws leaves
    the in-flight count where it found it, whether it was refused for the
    day, failed to get a token, got an answer at once, or went through the
    retry after a 401. *)
Theorem request_gives_its_slot_back `{Calendar} fuel self options w o w' tr :
  0 <= concurrent (rateLimiter w) ->
  request fuel self options w = (o, w', tr) ->
  o <> Suspended -> o <> OutOfFuel ->
  concurrent (rateLimiter w') = concurrent (rateLimiter w).
Proof.
  intros Hc Hreq Hs Hf. unfold request in Hreq.
  destruct (acquire self (time w) (time w) (rateLimiter w)) as [st s] eqn:Ha.
  apply acquire_held in Ha.
  match type of Hreq with
  | context [conclude ?f ?i ?op ?stx ?wx ?ag] =>
      destruct (conclude f i op stx wx ag) as [[o1 w1] tr1] eqn:Hcon
  end.
  simplify_eq.
  refine (conclude_restores _ _ _ _ _ _ _ _ _ _ Hc _ _ Hcon Hs Hf).
  - simpl. lia.
  - intros w2 o2 w3 tr2 Hw2 Hag Hs2 Hf2.
    assert (Hone : 1 <= concurrent (rateLimiter w2)) by lia.
    rewrite (request_again_restores _ _ _ _ _ _ _ Hone Hag Hs2 Hf2). lia.
Qed.

Lemma request_gives_its_slot_back_witness :
  exists o w' tr,
    @request Sample.utc 3 0 Sample.get_jobs Sample.expired_session = (o, w', tr)
    /\ count is_fetch tr = 2%nat
    /\ concurrent (rateLimiter w') = 0.
Proof.
  do 3 eexists. split; [vm_compute; reflexivity|]. split; [reflexivity|].
  eapply (@request_gives_its_slot_back Sample.utc 3 0 Sample.get_jobs
            Sample.expired_session);
    [simpl; lia | vm_compute; reflexivity | discriminate | discriminate].
Defined.

(** ** What a request returns and throws *)

Section RequestResults.
Context `{Calendar}.




End RequestResults.



Lemma request_throws_classified_witness :
  exists w' tr,
    @request Sample.utc 3 0 Sample.get_jobs Sample.outage
      = (Threw (handleErrorResponse Sample.unavailable), w', tr)
    /\ count is_release tr = 1%nat.
Proof.
  eapply (@request_throws_classified Sample.utc 3 0 Sample.get_jobs Sample.outage);
    [vm_compute; reflexivity | vm_compute; reflexivity | vm_compute; reflexivity
    | reflexivity | reflexivity].
Defined.

(** ** When no token can be had *)

Lemma or_else_nonempty a b : b <> ""%string -> or_else a b <> ""%string.
Proof.
  intros Hb. unfold or_else. destruct a as [v|]; [|exact Hb].
  destruct v; [exact Hb|discriminate].
Qed.

(** An acquisition that is not granted throws an [OAuthError] with a
    message, and with the status of the reply when there was one; the
    client keeps what it had. *)
Lemma acquireToken_failure now r c :
  (forall t, r <> TokenGranted t) ->
  exists e,
    acquireToken now r c = (inl e, c)
    /\ oe_message e <> ""%string
    /\ oe_statusCode e = match r with TokenRefused st _ => Some st | _ => None end.
Proof.
  intros Hr. destruct r as [t|st [b|]|why|]; simpl.
  - by destruct (Hr t).
  - eexists. split; [reflexivity|]. split; [|reflexivity]. simpl.
    apply or_else_nonempty, or_else_nonempty. discriminate.
  - eexists. split; [reflexivity|]. split; [|reflexivity]. discriminate.
  - eexists. split; [reflexivity|]. split; [|reflexivity]. discriminate.
  - eexists. split; [reflexivity|]. split; [|reflexivity]. discriminate.
Qed.

(** X12.  A request that needs a token and cannot get one (the endpoint
    refuses, answers garbage, or cannot be reached) throws a [PrimeApiError]
    with code [AUTH_ERROR], a message, and the status of the refusal, or 401
    when there is none; it never calls the API, it releases its slot, and
    the OAuth client is left as it was.  A tool reports it with the code
    [AUTH_ERROR], also when the cause was the network. *)
Theorem token_failure_is_an_auth_error `{Calendar} fuel self options w s r w1 text :
  acquire self (time w) (time w) (rateLimiter w) = (Acquired, s) ->
  getAccessToken_path (time w) (oauthClient w) = StartAcquisition ->
  next_token (set_rateLimiter s w) = (r, w1) ->
  (forall t, r <> TokenGranted t) ->
  exists msg w',
    let e := PrimeApiError msg AUTH_ERROR
               match r with
               | TokenRefused st _ => if st =? 0 then 401 else st
               | _ => 401
               end None in
    request fuel self options w
      = (Threw e, w', [DidAcquire; DidGetAccessToken; DidTokenFetch r; DidRelease])
    /\ msg <> ""%string
    /\ oauthClient w' = oauthClient w
    /\ api (network w') = api (network w)
    /\ ErrorHandler.er_code (ErrorHandler.classifyError (ErrorHandler.caught e text))
       = "AUTH_ERROR"%string.
Proof.
  intros Ha Hpath Hn Hr.
  assert (Hprom : refreshPromise (oauthClient w) = None).
  { unfold getAccessToken_path in Hpath.
    destruct (refreshPromise (oauthClient w)); [discriminate|reflexivity]. }
  assert (Hframe : oauthClient w1 = oauthClient w /\ api (network w1) = api (network w)).
  { unfold next_token in Hn. simpl in Hn.
    destruct (tokenEndpoint (network w)) as [|[d r'] rest]; by simplify_eq. }
  destruct Hframe as [Hoa Hapi].
  destruct (acquireToken_failure (time w1) r (oauthClient w1) Hr) as (e & Hacq & Hmsg & Hst).
  exists (oe_message e). eexists. cbv zeta.
  unfold request. rewrite Ha. unfold conclude.
  assert (Hres : acquire_resume fuel self Acquired (set_rateLimiter s w)
                 = (Acquired, set_rateLimiter s w)) by (destruct fuel; reflexivity).
  rewrite Hres. unfold attempt, getAccessToken.
  change (time (set_rateLimiter s w)) with (time w).
  change (oauthClient (set_rateLimiter s w)) with (oauthClient w).
  rewrite Hpath, Hn, Hacq. unfold auth_error. rewrite Hst.
  split; [|split; [exact Hmsg|split; [|split; [|reflexivity]]]].
  - simpl. destruct r as [t|st [b|]|why|]; reflexivity.
  - simpl. rewrite Hoa. destruct (oauthClient w) as [tk ex rp]. simpl in *.
    subst rp. reflexivity.
  - simpl. unfold release. simpl.
    destruct (waitingQueue (rateLimiter w1)); simpl; exact Hapi.
Qed.

Lemma token_failure_is_an_auth_error_witness :
  exists w',
    @request Sample.utc 3 0 Sample.get_jobs Sample.locked_out
      = (Threw (PrimeApiError "Invalid credentials" AUTH_ERROR 400 None), w',
         [DidAcquire; DidGetAccessToken;
          DidTokenFetch (TokenRefused 400
                           (Some (mkTokenErrorBody (Some "Invalid credentials") None
                                    (Some "invalid_grant"))));
          DidRelease])
    /\ api (network w') = api (network Sample.locked_out).
Proof.
  destruct (@token_failure_is_an_auth_error Sample.utc 3 0 Sample.get_jobs Sample.locked_out
              (@consume (@newRateLimiter Sample.utc 0))
              (TokenRefused 400
                 (Some (mkTokenErrorBody (Some "Invalid credentials") None
                          (Some "invalid_grant"))))
              (mkWorld (@consume (@newRateLimiter Sample.utc 0)) newOAuthClient 80
                 (mkNetwork [(120, Answered Sample.fine)] []))
              ""%string)
    as (msg & w' & Hreq & _ & _ & Hapi & _);
    [vm_compute; reflexivity | reflexivity | vm_compute; reflexivity | discriminate |].
  exists w'. split; [|exact Hapi].
  rewrite Hreq. vm_compute in Hreq. injection Hreq as Hm _. rewrite Hm. reflexivity.
Defined.

(** ** The life of a token *)

(** X13.  What [getTokenInfo()] tells.  The seconds it reports are never
    negative, and zero exactly when less than a second is left; a token that
    [hasValidToken()] accepts has at least 300 seconds left; and after
    [clearToken()] there is no token to report and none that is valid. *)
Theorem token_info_is_consistent (now : Z) (c : OAuthClient) :
  (forall e, (getTokenInfo now c).2 = Some e ->
     0 <= e /\ (e = 0 <-> tokenExpiresAt c - now < 1000))
  /\ (hasValidToken now c = true ->
        exists e, getTokenInfo now c = (true, Some e) /\ 300 <= e)
  /\ getTokenInfo now (clearToken c) = (false, None)
  /\ hasValidToken now (clearToken c) = false.
Proof.
  unfold getTokenInfo, hasValidToken, REFRESH_BUFFER_MS.
  split; [|split; [|split; reflexivity]].
  - intros e He. destruct (token c); simpl in He; [|discriminate].
    injection He as <-.
    pose proof (Z.div_mod (tokenExpiresAt c - now) 1000 ltac:(lia)) as Hd.
    pose proof (Z.mod_pos_bound (tokenExpiresAt c - now) 1000 ltac:(lia)) as Hm.
    split; [lia|]. split; intros Hz; lia.
  - intros Hv. destruct (token c); [|discriminate].
    apply Z.ltb_lt in Hv. eexists. split; [reflexivity|].
    assert (300 <= (tokenExpiresAt c - now) / 1000)
      by (apply Z.div_le_lower_bound; lia).
    lia.
Qed.



(** X15.  [refreshToken()] never serves the cache.  On a client with no
    acquisition in progress, [refreshToken()] followed by the endpoint's
    grant starts exactly one new acquisition, hands its caller the newly
    granted credential and caches the new token, however long the old token
    would still have been valid. *)
Theorem refreshToken_fetches_a_new_token (w : TokenPool) (tk : OAuthToken) :
  refreshPromise (client w) = None ->
  exists w',
    trun [CallRefreshToken; Settle (length (acquisitions w)) (TokenGranted tk)] w = Some w'
    /\ acquisitions w' = acquisitions w ++ [Got (access_token tk)]
    /\ received w' (length (callers w)) = Some (Got (access_token tk))
    /\ token (client w') = Some tk
    /\ tokenExpiresAt (client w') = tclock w + expires_in tk * 1000.
Proof.
  intros Hp. eexists. cbn [trun tstep]. unfold enter, getAccessToken_path. simpl.
  rewrite Hp. simpl.
  rewrite lookup_app_r by lia. rewrite Nat.sub_diag. simpl.
  split; [reflexivity|]. simpl.
  assert (Hins : <[length (acquisitions w) := Got (access_token tk)]>
                   (acquisitions w ++ [InFlight])
                 = acquisitions w ++ [Got (access_token tk)]).
  { rewrite insert_app_r_alt by lia. rewrite Nat.sub_diag. reflexivity. }
  rewrite Hins. split; [reflexivity|]. split; [|split; reflexivity].
  unfold received. simpl.
  rewrite lookup_app_r by lia. rewrite Nat.sub_diag. simpl.
  rewrite lookup_app_r by lia. rewrite Nat.sub_diag. reflexivity.
Qed.

Lemma refreshToken_fetches_a_new_token_witness :
  exists w',
    trun [CallRefreshToken; Settle 1 (Sample.grant "t2" 3600)]
      (mkTokenPool (mkOAuthClient (Some (mkOAuthToken "t1" "Bearer" 3600 None)) 3600000 None)
         1000 [Got "t1"%string] [Initiated 0]) = Some w'
    /\ received w' 1 = Some (Got "t2"%string)
    /\ token (client w') = Some (mkOAuthToken "t2" "Bearer" 3600 None).
Proof.
  destruct (refreshToken_fetches_a_new_token
              (mkTokenPool
                 (mkOAuthClient (Some (mkOAuthToken "t1" "Bearer" 3600 None)) 3600000 None)
                 1000 [Got "t1"%string] [Initiated 0])
              (mkOAuthToken "t2" "Bearer" 3600 None) eq_refl)
    as (w' & Hrun & _ & Hrec & Htok & _).
  exists w'. split; [exact Hrun|]. split; [exact Hrec|exact Htok].
Defined.

(** ** JSON:API documents *)

Section Documents.
Import JsonApi.
Context {V : Type} (str : string -> V).

(** The members of a flattened resource: its attributes, and [id] and
    [type] unless an attribute has taken the name. *)
Lemma flatten_lookup (r : @JsonApiResource V) (k : string) :
  flatten str r !! k
  = match res_attributes r !! k with
    | Some v => Some v
    | None =>
        if decide (k = "id"%string) then Some (str (res_id r))
        else if decide (k = "type"%string) then Some (str (res_type r))
        else None
    end.
Proof.
  unfold flatten. destruct (res_attributes r !! k) as [v|] eqn:Hk.
  - by apply lookup_union_Some_l.
  - rewrite lookup_union_r by exact Hk.
    destruct (decide (k = "id"%string)) as [->|Hid].
    + by rewrite lookup_insert_eq.
    + rewrite lookup_insert_ne by done.
      destruct (decide (k = "type"%string)) as [->|Hty].
      * by rewrite lookup_singleton_eq.
      * by rewrite lookup_singleton_ne.
Qed.

(** X16.  Flattening loses no attribute.  [extractSingleResource] succeeds
    on a single resource, and every attribute is a member of its result
    with its own value; [id] and [type] are members too, with the
    resource's identifier and type unless an attribute of that name exists,
    which then wins; and there is no other member. *)
Theorem flattening_keeps_every_attribute (r : @JsonApiResource V) meta inc :
  exists o,
    extractSingleResource str (mkJsonApiResponse (inl r) meta inc) = inr o
    /\ (forall k v, res_attributes r !! k = Some v -> o !! k = Some v)
    /\ (res_attributes r !! "id"%string = None -> o !! "id"%string = Some (str (res_id r)))
    /\ (res_attributes r !! "type"%string = None ->
          o !! "type"%string = Some (str (res_type r)))
    /\ (forall k, k <> "id"%string -> k <> "type"%string ->
          o !! k = res_attributes r !! k).
Proof.
  exists (flatten str r). split; [reflexivity|].
  split; [|split; [|split]].
  - intros k v Hk. by rewrite flatten_lookup, Hk.
  - intros Hk. by rewrite flatten_lookup, Hk.
  - intros Hk. by rewrite flatten_lookup, Hk.
  - intros k Hid Hty. rewrite flatten_lookup.
    destruct (res_attributes r !! k); [reflexivity|].
    destruct (decide (k = "id"%string)); [done|].
    destruct (decide (k = "type"%string)); done.
Qed.

(** X18.  Looking up an included resource.  What [findIncludedById] finds
    is a resource of the [included] array with exactly that type and
    identifier, flattened, and it is one of those [extractIncluded] lists
    for the type; it finds nothing exactly when [included] is absent or
    holds no resource with that type and identifier. *)
Theorem found_resource_is_included (resp : @JsonApiResponse V) (type id : string) :
  match findIncludedById str resp type id with
  | Some o =>
      exists items r,
        res_included resp = Some items /\ r ∈ items
        /\ res_type r = type /\ res_id r = id
        /\ o = flatten str r
        /\ o ∈ extractIncluded str resp type
  | None =>
      forall items r,
        res_included resp = Some items -> r ∈ items ->
        ~ (res_type r = type /\ res_id r = id)
  end.
Proof.
  unfold findIncludedById, extractIncluded.
  destruct (res_included resp) as [items|]; [|intros ? ? ?; discriminate].
  destruct (List.find _ items) as [found|] eqn:Hf.
  - apply find_some in Hf as [Hin Hm].
    apply andb_prop in Hm as [Ht Hi].
    apply String.eqb_eq in Ht. apply String.eqb_eq in Hi.
    exists items, found. split; [reflexivity|].
    split; [by apply list_elem_of_In|]. split; [exact Ht|]. split; [exact Hi|].
    split; [reflexivity|].
    apply list_elem_of_In, in_map, filter_In. split; [exact Hin|].
    by apply String.eqb_eq.
  - intros items' r Heq Hr [Ht Hi]. injection Heq as <-.
    apply list_elem_of_In in Hr.
    pose proof (find_none _ _ Hf r Hr) as Hno. cbv beta in Hno.
    apply andb_false_iff in Hno as [Hno|Hno]; apply String.eqb_neq in Hno; done.
Qed.

End Documents.

(** ** What a tool reports for a failed response *)

Section Reports.
Import ErrorHandler.

(** X19.  From the response to the report.  When the API answers with an
    error status, what a tool reports (the error [handleErrorResponse]
    throws, classified by [classifyError]) has the code [RATE_LIMITED]
    exactly for a 429, and only then a [retryAfter]; [UNAUTHORIZED],
    [FORBIDDEN], [NOT_FOUND], [VALIDATION_ERROR] exactly for 401, 403, 404,
    422; never one of the codes kept for other failures; and [details]
    only for a 422 or an unclassified status whose body was an error
    document. *)
Theorem failed_response_report (r : Response) (text : string) :
  let rep := classifyError (caught (handleErrorResponse r) text) in
  (er_code rep = "RATE_LIMITED"%string <-> status r = 429)
  /\ (er_retryAfter rep = None <-> status r <> 429)
  /\ (er_code rep = "UNAUTHORIZED"%string <-> status r = 401)
  /\ (er_code rep = "FORBIDDEN"%string <-> status r = 403)
  /\ (er_code rep = "NOT_FOUND"%string <-> status r = 404)
  /\ (er_code rep = "VALIDATION_ERROR"%string <-> status r = 422)
  /\ er_code rep <> "AUTH_ERROR"%string
  /\ er_code rep <> "NETWORK_ERROR"%string
  /\ er_code rep <> "INTERNAL_ERROR"%string
  /\ er_code rep <> "UNKNOWN_ERROR"%string
  /\ (er_details rep <> None ->
        isErrorResponse (body r) = true
        /\ (status r = 422 \/ er_code rep = "API_ERROR"%string)).
Proof.
  unfold handleErrorResponse.
  destruct (body r) as [|errs|m|raw] eqn:Hb;
    destruct (Z.eqb_spec (status r) 401) as [H401|H401];
    try destruct (Z.eqb_spec (status r) 403) as [H403|H403];
    try destruct (Z.eqb_spec (status r) 404) as [H404|H404];
    try destruct (Z.eqb_spec (status r) 422) as [H422|H422];
    try destruct (Z.eqb_spec (status r) 429) as [H429|H429];
    try destruct (Z.eqb_spec (status r) 500) as [H500|H500];
    try destruct (Z.eqb_spec (status r) 502) as [H502|H502];
    try destruct (Z.eqb_spec (status r) 503) as [H503|H503];
    try destruct (Z.eqb_spec (status r) 504) as [H504|H504];
    cbn -[Z.eqb];
    repeat split; intros; try discriminate; try lia; try done; auto.
Qed.

End Reports.

(** ** The filter builder *)

Section Filters.
Import Filter.

Lemma append_assoc_s (a b c : string) : ((a +:+ b) +:+ c = a +:+ (b +:+ c))%string.
Proof.
  induction a as [|x a IH]; [reflexivity|].
  change (String x ((a +:+ b) +:+ c) = String x (a +:+ (b +:+ c)))%string.
  by rewrite IH.
Qed.

Lemma concat_snoc sep l a :
  String.concat sep (l ++ [a])
  = match l with
    | [] => a
    | _ => (String.concat sep l +:+ sep +:+ a)%string
    end.
Proof.
  induction l as [|x l IH]; [reflexivity|].
  destruct l as [|y l]; [reflexivity|].
  change (String.concat sep ((x :: y :: l) ++ [a]))
    with (x +:+ sep +:+ String.concat sep ((y :: l) ++ [a]))%string.
  rewrite IH.
  change (String.concat sep (x :: y :: l))
    with (x +:+ sep +:+ String.concat sep (y :: l))%string.
  by rewrite !append_assoc_s.
Qed.

(** The query after one more filter. *)
Lemma build_raw e b :
  build (raw e b) = if hasFilters b then (build b +:+ "," +:+ e)%string else e.
Proof.
  unfold build, raw, hasFilters. simpl. rewrite concat_snoc.
  destruct (filters b); reflexivity.
Qed.

Lemma f_length_raw e b : f_length (raw e b) = S (f_length b).
Proof. unfold f_length, raw. simpl. rewrite length_app. simpl. lia. Qed.

(** X20.  Filter values are not escaped.  A value that contains a quote
    closes the expression it is put in: one [eq] filter whose value is
    [x'),'g'.eq('y] builds exactly the query of the two filters
    [eq(f, x)] and [eq(g, y)], while the builder counts one filter. *)
Theorem filter_values_are_not_escaped (f x g y : string) (b : FilterBuilder) :
  build (f_eq f (FStr (x +:+ "'),'" +:+ g +:+ "'.eq('" +:+ y)) b)
  = build (f_eq g (FStr y) (f_eq f (FStr x) b))
  /\ f_length (f_eq f (FStr (x +:+ "'),'" +:+ g +:+ "'.eq('" +:+ y)) b)
     = S (f_length b)
  /\ f_length (f_eq g (FStr y) (f_eq f (FStr x) b)) = S (S (f_length b)).
Proof.
  unfold f_eq. split; [|by rewrite !f_length_raw].
  rewrite !build_raw.
  assert (Hhas : hasFilters (raw (unary "eq" f (FStr x)) b) = true).
  { unfold hasFilters, raw. simpl. rewrite length_app. simpl.
    apply Nat.ltb_lt. lia. }
  rewrite Hhas.
  assert (Heq : unary "eq" f (FStr (x +:+ "'),'" +:+ g +:+ "'.eq('" +:+ y))
                = (unary "eq" f (FStr x) +:+ "," +:+ unary "eq" g (FStr y))%string).
  { unfold unary, show. rewrite !append_assoc_s. reflexivity. }
  rewrite Heq. destruct (hasFilters b); [|reflexivity].
  by rewrite !append_assoc_s.
Qed.

Lemma when_given_length param add b :
  (forall v b', f_length (add v b') = S (f_length b')) ->
  f_length (when_given param add b) = (f_length b + given [param])%nat.
Proof.
  intros Hadd. unfold when_given, given. destruct param as [v|]; simpl; [|lia].
  destruct (truthy v); simpl; [rewrite Hadd|]; lia.
Qed.

Lemma given_cons p ps : given (p :: ps) = (given [p] + given ps)%nat.
Proof.
  unfold given. simpl.
  destruct (match p with Some v => truthy v | None => false end); reflexivity.
Qed.

(** The [q] member of a list query: the built filters, when there are
    any. *)
Lemma list_query_q options :
  buildListQuery options !! "q"%string
  = match lo_filters options with
    | Some b => if hasFilters b then Some (FStr (build b)) else None
    | None => None
    end.
Proof.
  unfold buildListQuery.
  destruct (lo_filters options) as [b|]; [destruct (hasFilters b)|];
    rewrite ?lookup_insert_eq; try reflexivity;
    destruct (includes options) as [[|i rest]|];
    destruct (orderBy options) as [by_|]; try destruct (truthy by_);
    destruct (perPage options); destruct (page options);
    rewrite ?lookup_insert_ne by done; apply lookup_empty.
Qed.

Ltac count_filters :=
  cbv zeta;
  rewrite !when_given_length
    by (intros; unfold f_eq, f_gte, f_lte, f_like; apply f_length_raw);
  repeat rewrite (given_cons _ (_ :: _));
  change (f_length newFilterBuilder) with 0%nat; lia.

(** X21.  The ready-made filters take what is given.  [CommonFilters.jobs],
    [.contacts], [.allocations] and [.estimates] add exactly one filter for
    every parameter that is present and not the empty string, and none for
    the others; [isActive] counts whenever it is present, [false] included;
    and a list query made from them has a [q] member exactly when at least
    one parameter was given. *)
Theorem common_filters_take_what_is_given
    (jp : JobParams) (cp : ContactParams) (ap : AllocationParams) (ep : EstimateParams) :
  f_length (jobs jp)
  = given [jp_statusId jp; jp_divisionId jp; jp_assignedId jp; jp_clientId jp;
           jp_customerId jp; jp_perilId jp; jp_createdAfter jp; jp_createdBefore jp;
           jp_updatedAfter jp; jp_jobNumber jp; jp_clientReference jp]
  /\ f_length (contacts cp)
     = (given [cp_name cp; cp_email cp; cp_phone cp; cp_contactTypeId cp]
        + match cp_isActive cp with Some _ => 1 | None => 0 end)%nat
  /\ f_length (allocations ap)
     = given [ap_jobId ap; ap_assignedContactId ap; ap_allocationStatusId ap;
              ap_allocationType ap]
  /\ f_length (estimates ep)
     = given [ep_jobId ep; ep_createdAfter ep; ep_createdBefore ep]
  /\ (buildListQuery (mkListOptions None None None None None (Some (jobs jp)))
        !! "q"%string = None
      <-> given [jp_statusId jp; jp_divisionId jp; jp_assignedId jp; jp_clientId jp;
                 jp_customerId jp; jp_perilId jp; jp_createdAfter jp; jp_createdBefore jp;
                 jp_updatedAfter jp; jp_jobNumber jp; jp_clientReference jp] = 0%nat).
Proof.
  assert (Hjobs : f_length (jobs jp)
    = given [jp_statusId jp; jp_divisionId jp; jp_assignedId jp; jp_clientId jp;
             jp_customerId jp; jp_perilId jp; jp_createdAfter jp; jp_createdBefore jp;
             jp_updatedAfter jp; jp_jobNumber jp; jp_clientReference jp]).
  { unfold jobs. count_filters. }
  split; [exact Hjobs|]. split; [|split; [|split]].
  - unfold contacts. cbv zeta.
    destruct (cp_isActive cp) as [a|].
    + rewrite !when_given_length
        by (intros; unfold f_eq, f_gte, f_lte, f_like; apply f_length_raw).
      unfold f_eq at 1. rewrite f_length_raw.
      rewrite !when_given_length
        by (intros; unfold f_eq, f_gte, f_lte, f_like; apply f_length_raw).
      repeat rewrite (given_cons _ (_ :: _)).
      change (f_length newFilterBuilder) with 0%nat. lia.
    + count_filters.
  - unfold allocations. count_filters.
  - unfold estimates. count_filters.
  - rewrite list_query_q, <- Hjobs. cbn [lo_filters]. unfold hasFilters.
    change (length (filters (jobs jp))) with (f_length (jobs jp)).
    destruct (Nat.ltb_spec 0 (f_length (jobs jp))); split; intros; try done; lia.
Qed.

End Filters.

(** ** After the daily limit *)

(** X22.  The [retryAfter] of the daily limit is enough.  When [acquire()]
    throws for the day with [retryAfter] seconds, no [acquire()] made that
    many seconds later, or later still, is refused for the day: the daily
    count has started again from zero. *)
Theorem retry_after_is_enough `{Calendar} i now s retryAfter s1 j t :
  acquire i now now s = (Rejected retryAfter, s1) ->
  now + retryAfter * 1000 <= t ->
  exists st s2,
    acquire j t t s1 = (st, s2)
    /\ (forall r, st <> Rejected r)
    /\ dailyCount s2 = Usage.held st.
Proof.
  intros Ha Ht. unfold acquire, slot_gate, token_gate in Ha.
  destruct (Z.leb_spec dailyLimit (dailyCount (refillTokens now s))) as [Hfull|_];
    [|repeat case_match; discriminate].
  injection Ha as <- <-.
  pose proof (ceil_div_spec (dailyReset (refillTokens now s) - now) 1000 ltac:(lia)) as Hc.
  set (s1 := refillTokens now s) in *.
  assert (Hreset : dailyCount (refillTokens t s1) = 0).
  { unfold refillTokens. destruct (Z.leb_spec (dailyReset s1) t) as [_|Hlt]; [|lia].
    simpl. destruct (refillInterval <=? t - lastRefill s1); reflexivity. }
  destruct (acquire j t t s1) as [st s2] eqn:Hacq. exists st, s2.
  split; [reflexivity|].
  unfold acquire, slot_gate, token_gate, consume in Hacq. rewrite Hreset in Hacq.
  destruct (Z.leb_spec dailyLimit 0) as [Hbad|_]; [unfold dailyLimit in Hbad; lia|].
  repeat case_match; simplify_eq/=; (split; [discriminate|]); lia.
Qed.

Lemma retry_after_is_enough_witness :
  exists st s2,
    @acquire Sample.utc 1 86400000 86400000 (mkRateLimiter 60 0 5000 86400000 0 [])
      = (st, s2)
    /\ (forall r, st <> Rejected r)
    /\ dailyCount s2 = Usage.held st.
Proof.
  apply (@retry_after_is_enough Sample.utc 0%nat 1000
           (mkRateLimiter 60 0 5000 86400000 0 []) 86399
           (mkRateLimiter 60 0 5000 86400000 0 []) 1%nat 86400000);
    [vm_compute; reflexivity | lia].
Defined.

(** ** Messages and fields of a report *)

(** X23.  Every error of an error document gets a message.
    [extractErrorMessages] gives one message per error, in order, and none
    of them is empty: the [detail] when there is one that is not empty,
    else the [title] when there is one that is not empty, else the words
    [Unknown error]. *)
Theorem error_messages_are_never_empty (errors : list JsonApiError) :
  length (extractErrorMessages errors) = length errors
  /\ Forall (fun m => m <> ""%string) (extractErrorMessages errors)
  /\ forall i e, errors !! i = Some e ->
       exists m,
         extractErrorMessages errors !! i = Some m
         /\ (forall d, detail e = Some d -> d <> ""%string -> m = d)
         /\ (detail e = None \/ detail e = Some ""%string ->
               (forall t, title e = Some t -> t <> ""%string -> m = t)
               /\ (title e = None \/ title e = Some ""%string ->
                     m = "Unknown error"%string)).
Proof.
  unfold extractErrorMessages. split; [apply length_map|]. split.
  - apply Forall_forall. intros m Hm.
    apply list_elem_of_In, in_map_iff in Hm as (e & <- & _).
    apply or_else_nonempty, or_else_nonempty. discriminate.
  - intros i e Hi. eexists. split.
    { change (map ?f errors) with (f <$> errors). by rewrite list_lookup_fmap, Hi. }
    unfold or_else. split.
    + intros d -> Hd. destruct d; [done|reflexivity].
    + intros Hdet. split.
      * intros t -> Ht. destruct Hdet as [->| ->]; (destruct t; [done|reflexivity]).
      * intros [->| ->]; destruct Hdet as [->| ->]; reflexivity.
Qed.

Section ValidationReports.
Import ErrorHandler.

Lemma fieldErrors_snoc errors e :
  fieldErrors (errors ++ [e])
  = assign (path_key (zi_path e)) (zi_message e) (fieldErrors errors).
Proof. unfold fieldErrors. by rewrite foldl_app. Qed.

(** X24.  The fields of a validation report.  A [ZodError] is reported with
    the code [VALIDATION_ERROR] and a [fields] object whose members are
    these: under the path of each issue joined with dots, the message of the
    last issue with that path; no member for a path that no issue has; and
    never a member named [__proto__], whatever the issues are. *)
Theorem validation_report_fields (errors : list ZodIssue) (k : string) :
  exists fields,
    classifyError (CaughtZod errors)
    = mkErrorResponse "VALIDATION_ERROR" "Invalid input parameters"
        (Some (FieldDetails fields)) None
    /\ fields !! k
       = if decide (k = "__proto__"%string) then None
         else zi_message <$> last (filter (fun e => path_key (zi_path e) = k) errors).
Proof.
  exists (fieldErrors errors). split; [reflexivity|].
  induction errors as [|e errors IH] using rev_ind.
  { destruct (decide (k = "__proto__"%string)); apply lookup_empty. }
  rewrite fieldErrors_snoc, filter_app. unfold assign.
  destruct (String.eqb_spec (path_key (zi_path e)) "__proto__") as [Hp|Hp].
  - rewrite IH. destruct (decide (k = "__proto__"%string)) as [Hk|Hk]; [reflexivity|].
    rewrite filter_cons_False, filter_nil by congruence. by rewrite app_nil_r.
  - destruct (decide (path_key (zi_path e) = k)) as [Hk|Hk].
    + rewrite filter_cons_True, filter_nil by exact Hk.
      rewrite last_snoc. subst k. rewrite lookup_insert_eq.
      by destruct (decide (path_key (zi_path e) = "__proto__"%string)).
    + rewrite filter_cons_False, filter_nil by exact Hk.
      rewrite app_nil_r, lookup_insert_ne by exact Hk. exact IH.
Qed.

End ValidationReports.
